(** * Quine-McCluskey merge phase of [qm.py]: a shallow embedding and its properties

    The development follows the source file top to bottom:
    - the term model ([count_ones], [combine_terms], the validity test),
    - the grouping step and one merge pass over the group dictionary,
    - the fixed-point loop of [quine_mccluskey] and the final [sorted],
    - the tabular text format ([write_pla_output], [parse_pla_data]).

    Python strings are [string]s, the group dictionary is a [gmap] from the
    1-count to the list of terms, [used] and [prime_implicants] are [gset]s.
    A dictionary access on a missing key raises [KeyError] in Python; here the
    pass runs in the [option] monad and [None] stands for that exception. *)

From Stdlib Require Import ZArith Ascii String List Lia Permutation Sorted.
From Stdlib Require Import Decimal DecimalString DecimalZ.
From stdpp Require Import base option list sorting gmap strings.

Local Open Scope string_scope.
Local Open Scope list_scope.
Local Open Scope nat_scope.

(** ** Term model *)

Module Term.

(** [binary_string.count('1')] *)
Fixpoint count (c : ascii) (s : string) : nat :=
  match s with
  | EmptyString => 0
  | String b r => if Ascii.eqb b c then S (count c r) else count c r
  end.

Definition count_ones (binary_string : string) : nat := count "1"%char binary_string.

(** The body of the [for b1, b2 in zip(term1, term2)] loop of [combine_terms],
    with its two accumulators; [zip] stops at the end of the shorter string. *)
Fixpoint combine_loop (term1 term2 : string) (diff_count : nat) (combined : string)
  : nat * string :=
  match term1, term2 with
  | String b1 r1, String b2 r2 =>
      if negb (Ascii.eqb b1 b2)
      then combine_loop r1 r2 (S diff_count) (combined +:+ "-")
      else combine_loop r1 r2 diff_count (combined +:+ String b1 EmptyString)
  | _, _ => (diff_count, combined)
  end.

Definition combine_terms (term1 term2 : string) : option string :=
  let '(diff_count, combined) := combine_loop term1 term2 0 EmptyString in
  if Nat.eqb diff_count 1 then Some combined else None.

(** [all(c in '01-' for c in term)] *)
Definition symbol_ok (c : ascii) : bool :=
  Ascii.eqb c "0" || Ascii.eqb c "1" || Ascii.eqb c "-".

Fixpoint all_symbols_ok (term : string) : bool :=
  match term with
  | EmptyString => true
  | String c r => symbol_ok c && all_symbols_ok r
  end.

(** The negation of the guard [len(term) != num_inputs or not all(...)]. *)
Definition well_formed (num_inputs : Z) (term : string) : bool :=
  Z.eqb (Z.of_nat (String.length term)) num_inputs && all_symbols_ok term.

(** Python truthiness of a string: the empty string is false. *)
Definition truthy (s : string) : bool :=
  match s with EmptyString => false | String _ _ => true end.

End Term.

Import Term.

(** ** Grouping and merge engine *)

(** A [for] loop whose body can raise: the state is threaded through the
    iterations and the first [None] aborts the loop. *)
Fixpoint for_each {A S : Type} (l : list A) (body : A → S → option S) (s : S)
  : option S :=
  match l with
  | [] => Some s
  | x :: r =>
      match body x s with
      | Some s' => for_each r body s'
      | None => None
      end
  end.

(** [range(n)]: empty when [n <= 0]. *)
Definition range (n : Z) : list nat := seq 0 (Z.to_nat n).

(** [{i: [] for i in range(num_inputs + 1)}] *)
Definition empty_groups (num_inputs : Z) : gmap nat (list string) :=
  foldl (λ g i, <[i := []]> g) ∅ (range (num_inputs + 1)).

(** [groups[k].append(term)]: the lookup raises on a missing key. *)
Definition append_to (k : nat) (term : string) (groups : gmap nat (list string))
  : option (gmap nat (list string)) :=
  match groups !! k with
  | Some l => Some (<[k := l ++ [term]]> groups)
  | None => None
  end.

(** Step 1, one iteration: an invalid term is reported and skipped.  The
    second component collects the terms named by the [Warning] lines. *)
Definition group_step (num_inputs : Z) (term : string)
    (st : gmap nat (list string) * list string)
  : option (gmap nat (list string) * list string) :=
  let '(groups, warnings) := st in
  if negb (well_formed num_inputs term)
  then Some (groups, warnings ++ [term])
  else match append_to (count_ones term) term groups with
       | Some groups' => Some (groups', warnings)
       | None => None
       end.

Definition group_minterms (num_inputs : Z) (minterms : list string)
  : option (gmap nat (list string) * list string) :=
  for_each minterms (group_step num_inputs) (empty_groups num_inputs, []).

(** Step 2, the innermost body: [combined = combine_terms(term1, term2)]
    followed by [if combined: ...]. *)
Definition merge_pair (term1 term2 : string)
    (st : gmap nat (list string) * gset string)
  : option (gmap nat (list string) * gset string) :=
  let '(next_groups, used) := st in
  match combine_terms term1 term2 with
  | Some combined =>
      if truthy combined
      then match append_to (count_ones combined) combined next_groups with
           | Some next_groups' =>
               Some (next_groups', {[term2]} ∪ ({[term1]} ∪ used))
           | None => None
           end
      else Some st
  | None => Some st
  end.

(** The three nested loops of one pass.  [groups[i]] is read when the loop
    over [term1] starts, [groups[i + 1]] once for every [term1]. *)
Definition merge_pass (num_inputs : Z) (groups : gmap nat (list string))
  : option (gmap nat (list string) * gset string) :=
  for_each (range num_inputs)
    (λ i st,
       match groups !! i with
       | Some group_i =>
           for_each group_i
             (λ term1 st,
                match groups !! (S i) with
                | Some group_i1 => for_each group_i1 (merge_pair term1) st
                | None => None
                end) st
       | None => None
       end)
    (empty_groups num_inputs, ∅).

(** [groups.values()] *)
Definition values (groups : gmap nat (list string)) : list (list string) :=
  (map_to_list groups).*2.

(** [if term not in used: prime_implicants.add(term)] *)
Definition add_unused (used : gset string) (prime_implicants : gset string)
    (term : string) : gset string :=
  if decide (term ∈ used) then prime_implicants else {[term]} ∪ prime_implicants.

(** The loop that adds every term not in [used] to [prime_implicants]. *)
Definition collect (groups : gmap nat (list string)) (used : gset string)
    (prime_implicants : gset string) : gset string :=
  foldl (λ acc group, foldl (add_unused used) acc group)
        prime_implicants (values groups).

(** [any(next_groups.values())]: a list is true when it is not empty. *)
Definition any_nonempty (groups : gmap nat (list string)) : bool :=
  existsb (λ l, match l with [] => false | _ :: _ => true end) (values groups).

(** Lexical order of Python strings (by code point, a proper prefix first). *)
Definition str_le (s1 s2 : string) : Prop := String.leb s1 s2 = true.

Global Instance str_le_dec s1 s2 : Decision (str_le s1 s2).
Proof. unfold str_le. apply _. Defined.

(** [sorted(prime_implicants)] *)
Definition sorted (prime_implicants : gset string) : list string :=
  merge_sort str_le (elements prime_implicants).

(** What a run of [quine_mccluskey] can come to: it returns after some number
    of passes of the [while True] loop, it raises [KeyError], or the model's
    bound on the number of passes is reached first. *)
Inductive outcome : Type :=
  | Done (passes : nat) (result : list string)
  | Key_error
  | Out_of_fuel.

Fixpoint qm_loop (fuel : nat) (num_inputs : Z) (groups : gmap nat (list string))
    (prime_implicants : gset string) (passes : nat) : outcome :=
  match fuel with
  | O => Out_of_fuel
  | S fuel' =>
      match merge_pass num_inputs groups with
      | None => Key_error
      | Some (next_groups, used) =>
          let prime_implicants' := collect groups used prime_implicants in
          if negb (any_nonempty next_groups)
          then Done (S passes) (sorted prime_implicants')
          else qm_loop fuel' num_inputs next_groups prime_implicants' (S passes)
      end
  end.

(** [quine_mccluskey] with at most [fuel] passes allowed. *)
Definition quine_mccluskey_fuel (fuel : nat) (num_inputs : Z) (minterms : list string)
  : outcome :=
  match group_minterms num_inputs minterms with
  | None => Key_error
  | Some (groups, _) => qm_loop fuel num_inputs groups ∅ 0
  end.

(** [quine_mccluskey]: [num_inputs + 1] passes are always enough (lemma
    [quine_mccluskey_done] below), so this is the function itself. *)
Definition quine_mccluskey (num_inputs : Z) (minterms : list string) : outcome :=
  quine_mccluskey_fuel (S (Z.to_nat num_inputs)) num_inputs minterms.

(** ** Notions used in the statements *)

(** [a] and [b] differ at position [i] and nowhere else. *)
Definition differ_only_at (a b : string) (i : nat) : Prop :=
  i < String.length a ∧ String.get i a ≠ String.get i b ∧
  ∀ j, j ≠ i → String.get j a = String.get j b.

(** The same, by recursion on the two strings: [one_diff a b c] holds when
    [a] and [b] are equal but for one position, and [c] is [a] with ['-'] there. *)
Inductive one_diff : string → string → string → Prop :=
  | one_diff_here x y r :
      x ≠ y → one_diff (String x r) (String y r) (String "-" r)
  | one_diff_later x a b c :
      one_diff a b c → one_diff (String x a) (String x b) (String x c).

(** Number of don't-care symbols of a term. *)
Definition dashes (term : string) : nat := count "-"%char term.

(** [covers t m]: [t] and [m] have the same length and at every position [t]
    has ['-'] or the symbol of [m]. *)
Fixpoint covers (t m : string) : bool :=
  match t, m with
  | EmptyString, EmptyString => true
  | String x t', String y m' => (Ascii.eqb x "-" || Ascii.eqb x y) && covers t' m'
  | _, _ => false
  end.

(** A term without don't-care: only ['0'] and ['1']. *)
Fixpoint is_bits (term : string) : bool :=
  match term with
  | EmptyString => true
  | String c r => (Ascii.eqb c "0" || Ascii.eqb c "1") && is_bits r
  end.

(** ** A pass, described by the lists it walks through *)

(** [groups[i]] where the key exists, the empty list elsewhere. *)
Definition bucket (groups : gmap nat (list string)) (i : nat) : list string :=
  default [] (groups !! i).

(** The pairs [(term1, term2)] the three nested loops visit, in order. *)
Definition candidates (num_inputs : Z) (groups : gmap nat (list string))
  : list (string * string) :=
  i ← range num_inputs;
  term1 ← bucket groups i;
  term2 ← bucket groups (S i);
  [(term1, term2)].

(** The terms the visited pairs combine to, in order. *)
Definition outs (cands : list (string * string)) : list string :=
  omap (λ p, combine_terms p.1 p.2) cands.

(** The operands of the successful merges. *)
Definition absorbed (cands : list (string * string)) : gset string :=
  list_to_set (cands ≫= λ p, match combine_terms p.1 p.2 with
                            | Some _ => [p.1; p.2]
                            | None => []
                            end).

(** Appending the items one by one, each to the list under its 1-count. *)
Definition distribute (items : list string) (groups : gmap nat (list string))
  : option (gmap nat (list string)) :=
  for_each items (λ t g, append_to (count_ones t) t g) groups.

(** The shape every generation of groups has: the keys are [0..num_inputs],
    and a term under key [i] is well formed and has [i] ones. *)
Definition grouped (num_inputs : Z) (groups : gmap nat (list string)) : Prop :=
  (∀ i, is_Some (groups !! i) ↔ i < Z.to_nat (num_inputs + 1)) ∧
  (∀ i t, t ∈ bucket groups i → well_formed num_inputs t = true ∧ count_ones t = i).

(** ** The generations of a run *)

(** [generation num_inputs minterms k groups]: [groups] is the dictionary the
    [k]-th pass (counted from 0) of the loop works on; the dictionary built
    by the last pass, whose lists are all empty, is included. *)
Inductive generation (num_inputs : Z) (minterms : list string)
  : nat → gmap nat (list string) → Prop :=
  | generation_first groups warnings :
      group_minterms num_inputs minterms = Some (groups, warnings) →
      generation num_inputs minterms 0 groups
  | generation_next k groups next_groups used :
      generation num_inputs minterms k groups →
      merge_pass num_inputs groups = Some (next_groups, used) →
      generation num_inputs minterms (S k) next_groups.

(** The terms a generation leaves unabsorbed. *)
Definition survivor (num_inputs : Z) (minterms : list string) (j : nat) (t : string)
  : Prop :=
  ∃ groups i, generation num_inputs minterms j groups ∧ t ∈ bucket groups i ∧
              ¬ t ∈ absorbed (candidates num_inputs groups).


(** [set_first_dash x t]: [t] with its first ['-'] replaced by [x]. *)
Fixpoint set_first_dash (x : ascii) (t : string) : string :=
  match t with
  | EmptyString => EmptyString
  | String c r =>
      if Ascii.eqb c "-" then String x r else String c (set_first_dash x r)
  end.

(** [cube num_inputs minterms k t]: [t] is a well-formed term with [k]
    don't-cares, and every minterm it covers is in the input list. *)
Definition cube (num_inputs : Z) (minterms : list string) (k : nat) (t : string)
  : Prop :=
  well_formed num_inputs t = true ∧ dashes t = k ∧
  ∀ m, is_bits m = true → covers t m = true → m ∈ minterms.

(** ** The tabular text format *)

Module Pla.

(** The line feed character. *)
Definition nl : ascii := "010"%char.

(** Line boundaries of [str.splitlines()] among the code points below 256:
    LF, VT, FF, CR, FS, GS, RS and NEL. *)
Definition is_linebreak (c : ascii) : bool :=
  existsb (Nat.eqb (nat_of_ascii c)) [10; 11; 12; 13; 28; 29; 30; 133].

(** White space of [str.split()] among the code points below 256. *)
Definition is_whitespace (c : ascii) : bool :=
  existsb (Nat.eqb (nat_of_ascii c)) [9; 10; 11; 12; 13; 28; 29; 30; 31; 32; 133; 160].

(** [s.splitlines()]: the lines of [s] without their line breaks; CR LF is one
    break, and a break at the very end opens no further line. *)
Fixpoint splitlines (s : string) : list string :=
  match s with
  | EmptyString => []
  | String c r =>
      if is_linebreak c then
        match r with
        | String c' r' =>
            if Ascii.eqb c "013" && Ascii.eqb c' nl
            then EmptyString :: splitlines r'
            else EmptyString :: splitlines r
        | EmptyString => [EmptyString]
        end
      else
        match splitlines r with
        | line :: lines => String c line :: lines
        | [] => [String c EmptyString]
        end
  end.

(** [s.split()]: the maximal runs of characters that are not white space. *)
Fixpoint split (s : string) : list string :=
  match s with
  | EmptyString => []
  | String c r =>
      if is_whitespace c then split r
      else
        match r with
        | EmptyString => [String c EmptyString]
        | String c' _ =>
            if is_whitespace c' then String c EmptyString :: split r
            else match split r with
                 | tok :: toks => String c tok :: toks
                 | [] => [String c EmptyString]
                 end
        end
  end.

(** [line.startswith(p)] *)
Definition startswith (line p : string) : bool := String.prefix p line.

(** One decimal digit in front of the digits read so far. *)
Definition digit_cons (c : ascii) (d : Decimal.uint) : option Decimal.uint :=
  if Ascii.eqb c "0" then Some (Decimal.D0 d)
  else if Ascii.eqb c "1" then Some (Decimal.D1 d)
  else if Ascii.eqb c "2" then Some (Decimal.D2 d)
  else if Ascii.eqb c "3" then Some (Decimal.D3 d)
  else if Ascii.eqb c "4" then Some (Decimal.D4 d)
  else if Ascii.eqb c "5" then Some (Decimal.D5 d)
  else if Ascii.eqb c "6" then Some (Decimal.D6 d)
  else if Ascii.eqb c "7" then Some (Decimal.D7 d)
  else if Ascii.eqb c "8" then Some (Decimal.D8 d)
  else if Ascii.eqb c "9" then Some (Decimal.D9 d)
  else None.

(** The digits of an integer literal: at least one digit, and single
    underscores allowed between two digits. *)
Fixpoint uint_of_digits (s : string) : option Decimal.uint :=
  match s with
  | EmptyString => None
  | String c r =>
      match r with
      | EmptyString => digit_cons c Decimal.Nil
      | String c' r' =>
          if Ascii.eqb c' "_"
          then match uint_of_digits r' with
               | Some d => digit_cons c d
               | None => None
               end
          else match uint_of_digits r with
               | Some d => digit_cons c d
               | None => None
               end
      end
  end.

(** [int(tok)] for a token without white space (what [split] returns):
    an optional sign and the digits; [None] stands for [ValueError]. *)
Definition int (tok : string) : option Z :=
  match tok with
  | String c r =>
      if Ascii.eqb c "-" then
        match uint_of_digits r with
        | Some d => Some (Z.of_int (Decimal.Neg d))
        | None => None
        end
      else if Ascii.eqb c "+" then
        match uint_of_digits r with
        | Some d => Some (Z.of_int (Decimal.Pos d))
        | None => None
        end
      else
        match uint_of_digits tok with
        | Some d => Some (Z.of_int (Decimal.Pos d))
        | None => None
        end
  | EmptyString => None
  end.

(** [str(n)], as an f-string formats an integer. *)
Definition str (n : Z) : string := NilZero.string_of_int (Z.to_int n).

(** One iteration of the loop of [parse_pla_data]; [None] stands for the
    [IndexError] of [line.split()[1]] or the [ValueError] of [int]. *)
Definition parse_line (line : string) (st : list string * Z * Z)
  : option (list string * Z * Z) :=
  let '(minterms, num_inputs, num_outputs) := st in
  if startswith line "." then
    if startswith line ".i" then
      match split line !! 1 with
      | Some tok =>
          match int tok with
          | Some n => Some (minterms, n, num_outputs)
          | None => None
          end
      | None => None
      end
    else if startswith line ".o" then
      match split line !! 1 with
      | Some tok =>
          match int tok with
          | Some n => Some (minterms, num_inputs, n)
          | None => None
          end
      | None => None
      end
    else Some st
  else
    match split line with
    | [term; output] =>
        if String.eqb output "1"
        then Some (minterms ++ [term], num_inputs, num_outputs)
        else Some st
    | _ => Some st
    end.

Definition parse_pla_data (pla_data : string) : option (list string * Z * Z) :=
  for_each (splitlines pla_data) parse_line ([], 0%Z, 0%Z).

(** The text [write_pla_output] writes to the file, one [file.write] after
    the other. *)
Definition write_pla_output (minimized_terms : list string)
    (num_inputs num_outputs : Z) : string :=
  let file := ".i " +:+ str num_inputs +:+ String nl EmptyString in
  let file := file +:+ (".o " +:+ str num_outputs +:+ String nl EmptyString) in
  let file :=
    foldl (λ file term, file +:+ (term +:+ " 1" +:+ String nl EmptyString))
          file minimized_terms in
  file +:+ (".e" +:+ String nl EmptyString).

End Pla.

(** The text made of the given lines, each followed by a line feed. *)
Definition unlines (lines : list string) : string :=
  foldr (λ line text, line +:+ String Pla.nl text) EmptyString lines.

(** No character of [s] is a line break, or white space. *)
Fixpoint no_linebreak (s : string) : bool :=
  match s with
  | EmptyString => true
  | String c r => negb (Pla.is_linebreak c) && no_linebreak r
  end.

Fixpoint no_whitespace (s : string) : bool :=
  match s with
  | EmptyString => true
  | String c r => negb (Pla.is_whitespace c) && no_whitespace r
  end.

(** [c] is one of the ten decimal digits. *)
Definition is_digit (c : ascii) : bool :=
  match Pla.digit_cons c Decimal.Nil with Some _ => true | None => false end.

(** [implicant num_inputs minterms t]: [t] is well formed and every minterm
    it covers is in the input list. *)
Definition implicant (num_inputs : Z) (minterms : list string) (t : string) : Prop :=
  well_formed num_inputs t = true ∧
  ∀ m, is_bits m = true → covers t m = true → m ∈ minterms.

(** Two dictionaries whose lists have the same members, key by key. *)
Definition same_members (g1 g2 : gmap nat (list string)) : Prop :=
  ∀ k t, t ∈ bucket g1 k ↔ t ∈ bucket g2 k.

(** The term of [n] don't-cares. *)
Fixpoint all_dashes (n : nat) : string :=
  match n with
  | O => EmptyString
  | S n' => String "-" (all_dashes n')
  end.

(** ** Reading the parser's loop line by line *)

(** The minterm a row contributes: the first of exactly two tokens when the
    second is ["1"], on a line that does not start with a dot. *)
Definition row_term (line : string) : option string :=
  if Pla.startswith line "." then None
  else match Pla.split line with
       | [term; output] => if String.eqb output "1" then Some term else None
       | _ => None
       end.

(** The number a line starting with [p] declares. *)
Definition declared (p : string) (line : string) : option Z :=
  if Pla.startswith line p
  then match Pla.split line !! 1 with
       | Some tok => Pla.int tok
       | None => None
       end
  else None.

(** A line that starts with [".i"] or [".o"] and has no second token, or one
    that [int] rejects. *)
Definition bad_declaration (line : string) : Prop :=
  (Pla.startswith line ".i" = true ∨ Pla.startswith line ".o" = true) ∧
  ∀ tok, Pla.split line !! 1 = Some tok → Pla.int tok = None.

(** ** The program *)

Module Main.

(** The carriage return. *)
Definition cr : ascii := "013"%char.

(** What [file.read()] returns for a file opened in text mode: the stored
    characters, with every CR LF and every other CR turned into a line feed. *)
Fixpoint universal_newlines (s : string) : string :=
  match s with
  | EmptyString => EmptyString
  | String c r =>
      if Ascii.eqb c cr then
        match r with
        | String c' r' =>
            if Ascii.eqb c' Pla.nl then String Pla.nl (universal_newlines r')
            else String Pla.nl (universal_newlines r)
        | EmptyString => String Pla.nl EmptyString
        end
      else String c (universal_newlines r)
  end.

(** [s.replace(old, new)]: the occurrences of [old] are found from left to
    right and do not overlap; [skip] counts the characters of the occurrence
    just replaced that are still to be passed over.  For an empty [old],
    [new] goes in front of every character and at the end. *)
Fixpoint replace_from (skip : nat) (s old new : string) : string :=
  match s with
  | EmptyString =>
      match skip, old with
      | O, EmptyString => new
      | _, _ => EmptyString
      end
  | String c r =>
      match skip with
      | S skip' => replace_from skip' r old new
      | O =>
          if Pla.startswith (String c r) old then
            match old with
            | EmptyString => new +:+ String c (replace_from 0 r old new)
            | String _ old' => new +:+ replace_from (String.length old') r old new
            end
          else String c (replace_from 0 r old new)
      end
  end.

Definition replace (s old new : string) : string := replace_from 0 s old new.

(** [input_file.replace('.pla', '_minimized.pla')] *)
Definition output_file (input_file : string) : string :=
  replace input_file ".pla" "_minimized.pla".

(** What a path holds, as far as [open(path, 'r')] and [file.read()] go: a
    file whose bytes decode to the given characters, or a file that opens
    but whose bytes do not decode.  A path that cannot be opened for reading
    (no such file, a directory, no permission) holds nothing. *)
Inductive file : Type :=
  | Text (content : string)
  | Undecodable.

(** The exceptions that can leave [main]: [OSError] from one of the two
    [open] or from writing (of which [FileNotFoundError] is one),
    [UnicodeDecodeError] from [file.read()], [IndexError] or [ValueError]
    from [parse_pla_data], [KeyError] from [quine_mccluskey]. *)
Inductive exception : Type :=
  | OSError
  | UnicodeDecodeError
  | ParseError
  | KeyError.

(** How a call of [main] ends: [sys.exit(code)], an exception that nothing
    catches, or the return, with the files as they then are.  After an
    exception nothing is said about the files.  [Out_of_passes] stands for
    a run of [quine_mccluskey] that meets the bound of its model. *)
Inductive result : Type :=
  | Exit (code : Z)
  | Raise (e : exception)
  | Out_of_passes
  | Return (files : gmap string file).

(** [main], with [sys.argv] and the file system as arguments.  [files] says
    what every path holds for a reader, and [writable path] whether
    [open(path, 'w')] and the writes that follow go through: where they do
    not (a missing directory, no permission), [OSError] leaves [main].  A line
    feed is written as it is.  What is printed is left out. *)
Definition main (argv : list string) (files : gmap string file)
    (writable : string → bool) : result :=
  match argv with
  | _ :: input_file :: _ =>
      match files !! input_file with
      | None => Raise OSError
      | Some Undecodable => Raise UnicodeDecodeError
      | Some (Text content) =>
          let pla_data := universal_newlines content in
          match Pla.parse_pla_data pla_data with
          | None => Raise ParseError
          | Some (minterms, num_inputs, num_outputs) =>
              match quine_mccluskey num_inputs minterms with
              | Done _ minimized_terms =>
                  let output_file := replace input_file ".pla" "_minimized.pla" in
                  if writable output_file then
                    let file :=
                      ".i " +:+ Pla.str num_inputs +:+ String Pla.nl
                        (".o " +:+ Pla.str num_outputs +:+ String Pla.nl EmptyString) in
                    let file :=
                      foldl (λ file term,
                               file +:+ (term +:+ " 1" +:+ String Pla.nl EmptyString))
                            file minimized_terms in
                    let file := file +:+ (".e" +:+ String Pla.nl EmptyString) in
                    Return (<[output_file := Text file]> files)
                  else Raise OSError
              | Key_error => Raise KeyError
              | Out_of_fuel => Out_of_passes
              end
          end
      end
  | _ => Exit 1
  end.

End Main.

(** [old in s] *)
Fixpoint contains (s old : string) : bool :=
  Pla.startswith s old ||
  match s with
  | String _ r => contains r old
  | EmptyString => false
  end.

(** * Properties *)

(** ** The scenarios of the specification, by evaluation *)

Example combine_00_01 : combine_terms "00" "01" = Some "0-".
Proof. reflexivity. Qed.

Example combine_00_11 : combine_terms "00" "11" = None.
Proof. reflexivity. Qed.

Example combine_short_long : combine_terms "0" "11" = Some "-".
Proof. reflexivity. Qed.

Example scenario_1 : quine_mccluskey 2 ["00"; "01"] = Done 2 ["0-"].
Proof. vm_compute. reflexivity. Qed.

Example scenario_2 : quine_mccluskey 2 ["00"; "11"] = Done 1 ["00"; "11"].
Proof. vm_compute. reflexivity. Qed.

Example scenario_3 :
  quine_mccluskey 3 ["000"; "001"; "010"; "011"] = Done 3 ["0--"].
Proof. vm_compute. reflexivity. Qed.

Example scenario_5 :
  quine_mccluskey 3 ["000"; "001"; "101"] = Done 2 ["-01"; "00-"].
Proof. vm_compute. reflexivity. Qed.


(** ** Term model: [combine_terms] *)

Section combine.

Lemma append_empty_r s : s +:+ EmptyString = s.
Proof.
  induction s as [|a s IH]; [reflexivity|].
  change (String a (s +:+ EmptyString) = String a s). congruence.
Qed.

Lemma append_assoc s1 s2 s3 : (s1 +:+ s2) +:+ s3 = s1 +:+ (s2 +:+ s3).
Proof.
  induction s1 as [|a s1 IH]; [reflexivity|].
  change (String a ((s1 +:+ s2) +:+ s3) = String a (s1 +:+ (s2 +:+ s3))). congruence.
Qed.

(** The loop only adds to its accumulators. *)
Lemma combine_loop_acc term1 term2 d c :
  combine_loop term1 term2 d c =
  (d + (combine_loop term1 term2 0 EmptyString).1,
   c +:+ (combine_loop term1 term2 0 EmptyString).2).
Proof.
  revert term2 d c. induction term1 as [|b1 r1 IH]; intros [|b2 r2] d c; simpl;
    rewrite ?append_empty_r, ?Nat.add_0_r; try reflexivity.
  change (EmptyString +:+ "-") with "-".
  change (EmptyString +:+ String b1 EmptyString) with (String b1 EmptyString).
  destruct (Ascii.eqb b1 b2); simpl.
  - rewrite (IH r2 d). rewrite (IH r2 0 (String b1 EmptyString)). simpl.
    rewrite <- append_assoc. reflexivity.
  - rewrite (IH r2 (S d)). rewrite (IH r2 1 "-"). simpl.
    rewrite <- append_assoc. f_equal. lia.
Qed.

Lemma combine_loop_cons b1 r1 b2 r2 :
  combine_loop (String b1 r1) (String b2 r2) 0 EmptyString =
  if Ascii.eqb b1 b2
  then ((combine_loop r1 r2 0 EmptyString).1, String b1 (combine_loop r1 r2 0 EmptyString).2)
  else (S (combine_loop r1 r2 0 EmptyString).1, String "-" (combine_loop r1 r2 0 EmptyString).2).
Proof.
  simpl. destruct (Ascii.eqb b1 b2); simpl; rewrite combine_loop_acc; reflexivity.
Qed.

Lemma combine_loop_same t : combine_loop t t 0 EmptyString = (0, t).
Proof.
  induction t as [|b r IH]; [reflexivity|].
  rewrite combine_loop_cons, Ascii.eqb_refl, IH. reflexivity.
Qed.

Lemma combine_loop_zero a b :
  String.length a = String.length b →
  (combine_loop a b 0 EmptyString).1 = 0 → a = b.
Proof.
  revert b. induction a as [|x a IH]; intros [|y b]; simpl; try discriminate; auto.
  intros Hl. change (if negb (x =? y)%char then _ else _)
    with (combine_loop (String x a) (String y b) 0 EmptyString).
  rewrite combine_loop_cons. destruct (Ascii.eqb_spec x y) as [->|]; simpl; [|discriminate].
  intros H. f_equal. apply IH; [lia|assumption].
Qed.

Lemma combine_terms_one_diff a b c :
  String.length a = String.length b →
  combine_terms a b = Some c ↔ one_diff a b c.
Proof.
  intros Hl. unfold combine_terms. split.
  - revert b c Hl. induction a as [|x a IH]; intros [|y b] c; simpl String.length;
      try discriminate.
    intros Hl. rewrite combine_loop_cons.
    destruct (Ascii.eqb_spec x y) as [->|Hxy].
    + specialize (IH b). destruct (combine_loop a b 0 EmptyString) as [d m]. simpl.
      destruct (Nat.eqb_spec d 1); [|discriminate]. intros [= <-].
      apply one_diff_later, IH; [lia|]. subst. reflexivity.
    + pose proof (combine_loop_zero a b) as Hz.
      destruct (combine_loop a b 0 EmptyString) as [d m] eqn:E. simpl.
      destruct d; [|destruct d; discriminate]. simpl. intros [= <-].
      assert (a = b) as -> by (apply Hz; [lia|reflexivity]).
      rewrite combine_loop_same in E. injection E as <-.
      apply one_diff_here, Hxy.
  - clear Hl. induction 1 as [x y r Hxy|x a b c _ IH].
    + rewrite combine_loop_cons, combine_loop_same.
      destruct (Ascii.eqb_spec x y); [contradiction|reflexivity].
    + rewrite combine_loop_cons, Ascii.eqb_refl.
      destruct (combine_loop a b 0 EmptyString) as [d m]. simpl in *.
      destruct (Nat.eqb d 1); [|discriminate]. congruence.
Qed.

End combine.

(** The recursive and the positional readings of "differ in one position". *)
Lemma one_diff_length a b c :
  one_diff a b c → String.length a = String.length b ∧ String.length c = String.length a.
Proof. induction 1; simpl; intuition congruence. Qed.

Lemma one_diff_positions a b c :
  one_diff a b c →
  ∃ i, differ_only_at a b i ∧ String.get i c = Some "-"%char ∧
       ∀ j, j ≠ i → String.get j c = String.get j a.
Proof.
  induction 1 as [x y r Hxy|x a b c _ (i & (Hi & Hne & Hoth) & Hc & Hrest)].
  - exists 0. repeat split; simpl; try lia; try congruence.
    + intros [|j] Hj; [lia|reflexivity].
    + intros [|j] Hj; [lia|reflexivity].
  - exists (S i). repeat split; simpl; try lia; try assumption.
    + intros [|j] Hj; [reflexivity|]. apply Hoth. lia.
    + intros [|j] Hj; [reflexivity|]. apply Hrest. lia.
Qed.

Lemma differ_only_at_one_diff a b i :
  String.length a = String.length b → differ_only_at a b i → ∃ c, one_diff a b c.
Proof.
  revert b i. induction a as [|x a IH]; intros [|y b] i Hl (Hi & Hne & Hoth);
    simpl in *; try lia.
  destruct i as [|i].
  - assert (a = b) as ->.
    { apply String.get_correct. intros j. apply (Hoth (S j)). lia. }
    eexists. apply one_diff_here. congruence.
  - assert (x = y) as -> by (specialize (Hoth 0); simpl in Hoth; naive_solver lia).
    destruct (IH b i) as [c Hc]; [lia| |eexists; apply one_diff_later, Hc].
    repeat split; [lia|assumption|].
    intros j Hj. apply (Hoth (S j)). lia.
Qed.

(** C1: for two terms of the same length, which is where the merge is
    defined and how [quine_mccluskey] calls it, [combine_terms] returns a
    term exactly when they differ in exactly one position; the returned
    term has the inputs' length, has ['-'] at the differing position and the
    inputs' common symbol at every other position. *)
Theorem combine_terms_correct (a b : string) :
  String.length a = String.length b →
  (combine_terms a b ≠ None ↔ ∃ i, differ_only_at a b i) ∧
  (∀ c, combine_terms a b = Some c →
        String.length c = String.length a ∧
        ∃ i, differ_only_at a b i ∧ String.get i c = Some "-"%char ∧
             ∀ j, j ≠ i → String.get j c = String.get j a ∧
                          String.get j c = String.get j b).
Proof.
  intros Hl. split; [split|].
  - destruct (combine_terms a b) as [c|] eqn:E; [|congruence]. intros _.
    apply combine_terms_one_diff in E; [|assumption].
    destruct (one_diff_positions _ _ _ E) as (i & Hd & _). eauto.
  - intros [i Hd]. destruct (differ_only_at_one_diff a b i Hl Hd) as [c Hc].
    apply combine_terms_one_diff in Hc; [|assumption]. congruence.
  - intros c E. apply combine_terms_one_diff in E; [|assumption].
    split; [apply (one_diff_length _ _ _ E)|].
    destruct (one_diff_positions _ _ _ E) as (i & Hd & Hc & Hrest).
    exists i. repeat split; try assumption; try apply Hd.
    + apply Hrest. assumption.
    + rewrite Hrest by assumption. apply Hd. assumption.
Qed.

Lemma combine_terms_correct_witness :
  (combine_terms "010" "011" ≠ None ↔ ∃ i, differ_only_at "010" "011" i) ∧
  (∀ c, combine_terms "010" "011" = Some c →
        String.length c = String.length "010" ∧
        ∃ i, differ_only_at "010" "011" i ∧ String.get i c = Some "-"%char ∧
             ∀ j, j ≠ i → String.get j c = String.get j "010" ∧
                          String.get j c = String.get j "011").
Proof. apply (combine_terms_correct "010" "011"). reflexivity. Defined.

(** Outside that domain [zip] stops at the shorter term: ["0"] and ["11"]
    combine although their lengths differ. *)
Lemma combine_terms_unequal_length :
  ¬ (combine_terms "0" "11" ≠ None ↔
     String.length "0" = String.length "11" ∧ ∃ i, differ_only_at "0" "11" i).
Proof.
  intros [H _]. assert (combine_terms "0" "11" ≠ None) as Hn by (vm_compute; discriminate).
  destruct (H Hn) as [Hl _]. vm_compute in Hl. discriminate.
Qed.

(** ** Loops over lists and buckets *)

Lemma for_each_app {A S : Type} (l1 l2 : list A) (body : A → S → option S) s :
  for_each (l1 ++ l2) body s =
  match for_each l1 body s with Some s' => for_each l2 body s' | None => None end.
Proof.
  revert s. induction l1 as [|x l1 IH]; intros s; simpl; [reflexivity|].
  destruct (body x s); [apply IH|reflexivity].
Qed.

Lemma for_each_bind {A B S : Type} (l : list A) (f : A → list B) (body : B → S → option S) s :
  for_each (l ≫= f) body s = for_each l (λ x s, for_each (f x) body s) s.
Proof.
  revert s. induction l as [|x l IH]; intros s; [reflexivity|].
  rewrite bind_cons, for_each_app. simpl.
  destruct (for_each (f x) body s); [apply IH|reflexivity].
Qed.

Lemma for_each_ext {A S : Type} (l : list A) (body1 body2 : A → S → option S) s :
  (∀ x s, x ∈ l → body1 x s = body2 x s) → for_each l body1 s = for_each l body2 s.
Proof.
  revert s. induction l as [|x l IH]; intros s H; simpl; [reflexivity|].
  rewrite H by constructor. destruct (body2 x s); [|reflexivity].
  apply IH. intros y s' Hy. apply H. constructor. assumption.
Qed.

Lemma empty_groups_lookup num_inputs k :
  empty_groups num_inputs !! k =
  if decide (k < Z.to_nat (num_inputs + 1)) then Some [] else None.
Proof.
  unfold empty_groups, range. generalize (Z.to_nat (num_inputs + 1)). intros m.
  induction m as [|m IH].
  - cbn [seq foldl]. rewrite lookup_empty. destruct (decide (k < 0)); [lia|reflexivity].
  - rewrite seq_S, foldl_app. cbn [foldl Nat.add]. rewrite lookup_insert, IH.
    destruct (decide (m = k)), (decide (k < m)), (decide (k < S m)); (reflexivity || lia).
Qed.

Lemma distribute_spec items (groups : gmap nat (list string)) :
  (∀ t, t ∈ items → is_Some (groups !! count_ones t)) →
  ∃ groups', distribute items groups = Some groups' ∧
    ∀ k, groups' !! k =
         (λ l, l ++ filter (λ t, count_ones t = k) items) <$> groups !! k.
Proof.
  revert groups. induction items as [|t items IH]; intros groups Hk.
  - exists groups. split; [reflexivity|]. intros k.
    destruct (groups !! k); simpl; [rewrite app_nil_r|]; reflexivity.
  - unfold distribute. simpl. unfold append_to.
    destruct (Hk t) as [l Hl]; [constructor|]. rewrite Hl.
    destruct (IH (<[count_ones t := l ++ [t]]> groups)) as (g' & Hg' & Hlook).
    { intros t' Ht'. rewrite lookup_insert. case_decide; [eauto|].
      apply Hk. constructor. assumption. }
    exists g'. split; [exact Hg'|]. intros k. rewrite Hlook, lookup_insert.
    rewrite filter_cons. repeat case_decide; try congruence.
    subst k. rewrite Hl. simpl. rewrite <- app_assoc. reflexivity.
Qed.

(** ** Facts about terms *)

Lemma count_le_length c t : count c t ≤ String.length t.
Proof. induction t as [|b r IH]; simpl; [lia|]. destruct (Ascii.eqb b c); lia. Qed.

Lemma well_formed_length num_inputs t :
  well_formed num_inputs t = true → Z.of_nat (String.length t) = num_inputs.
Proof. unfold well_formed. intros [H _]%andb_prop. apply Z.eqb_eq, H. Qed.

Lemma well_formed_symbols num_inputs t :
  well_formed num_inputs t = true → all_symbols_ok t = true.
Proof. unfold well_formed. intros [_ H]%andb_prop. exact H. Qed.

Lemma well_formed_same_length num_inputs a b :
  well_formed num_inputs a = true → well_formed num_inputs b = true →
  String.length a = String.length b.
Proof. intros Ha%well_formed_length Hb%well_formed_length. lia. Qed.

Lemma combine_terms_truthy a b c : combine_terms a b = Some c → truthy c = true.
Proof.
  unfold combine_terms. destruct a as [|x a], b as [|y b]; try discriminate.
  rewrite combine_loop_cons.
  destruct (Ascii.eqb x y), (combine_loop a b 0 EmptyString) as [[|[|d]] m];
    simpl; intros H; try discriminate; injection H as <-; reflexivity.
Qed.

Lemma one_diff_symbols a b c :
  one_diff a b c → all_symbols_ok a = true → all_symbols_ok c = true.
Proof.
  induction 1 as [x y r _|x a b c _ IH]; simpl; intros [Hx Hr]%andb_prop.
  - exact Hr.
  - rewrite Hx. simpl. auto.
Qed.

Lemma one_diff_well_formed num_inputs a b c :
  one_diff a b c → well_formed num_inputs a = true → well_formed num_inputs c = true.
Proof.
  intros H Ha. unfold well_formed.
  destruct (one_diff_length _ _ _ H) as [_ ->].
  apply andb_true_intro. split.
  - apply Z.eqb_eq, (well_formed_length _ _ Ha).
  - apply (one_diff_symbols _ _ _ H), (well_formed_symbols _ _ Ha).
Qed.

(** When the second operand has one more ['1'], the differing symbol of the
    second operand is that ['1']. *)
Lemma one_diff_counts a b c :
  one_diff a b c → count_ones b = S (count_ones a) →
  count_ones c = count_ones a ∧ dashes c = S (dashes b).
Proof.
  unfold count_ones, dashes.
  induction 1 as [x y r Hxy|x a b c _ IH]; simpl.
  - destruct (Ascii.eqb_spec y "1") as [->|], (Ascii.eqb_spec x "1") as [->|];
      try lia; try congruence. intros _. split; reflexivity.
  - destruct (Ascii.eqb x "1"), (Ascii.eqb x "-"); intros Hc;
      destruct IH as [IH1 IH2]; try lia.
Qed.

Lemma covers_refl t : covers t t = true.
Proof.
  induction t as [|x t IH]; [reflexivity|]. simpl.
  rewrite Ascii.eqb_refl, IH, orb_true_r. reflexivity.
Qed.

Lemma covers_trans t1 t2 t3 :
  covers t1 t2 = true → covers t2 t3 = true → covers t1 t3 = true.
Proof.
  revert t2 t3. induction t1 as [|x t1 IH]; intros [|y t2] [|z t3]; simpl;
    try discriminate; auto.
  intros [Hxy H12]%andb_prop [Hyz H23]%andb_prop.
  rewrite (IH _ _ H12 H23), andb_true_r.
  destruct (Ascii.eqb_spec x "-"); [reflexivity|]. simpl in *.
  apply Ascii.eqb_eq in Hxy. subst y.
  destruct (Ascii.eqb_spec x "-"); [contradiction|]. exact Hyz.
Qed.

Lemma one_diff_covers a b c :
  one_diff a b c → covers c a = true ∧ covers c b = true.
Proof.
  induction 1 as [x y r _|x a b c _ [IH1 IH2]]; simpl.
  - rewrite covers_refl. split; reflexivity.
  - rewrite Ascii.eqb_refl, IH1, IH2, orb_true_r. split; reflexivity.
Qed.

(** ** One merge pass *)

Lemma outs_cons a b cands :
  outs ((a, b) :: cands) =
  match combine_terms a b with Some c => c :: outs cands | None => outs cands end.
Proof. unfold outs. simpl. destruct (combine_terms a b); reflexivity. Qed.

Lemma absorbed_cons a b cands :
  absorbed ((a, b) :: cands) =
  match combine_terms a b with
  | Some _ => {[a]} ∪ ({[b]} ∪ absorbed cands)
  | None => absorbed cands
  end.
Proof.
  unfold absorbed. rewrite bind_cons, list_to_set_app_L. simpl.
  destruct (combine_terms a b); simpl; set_solver.
Qed.

Lemma elem_of_outs c cands :
  c ∈ outs cands ↔ ∃ a b, (a, b) ∈ cands ∧ combine_terms a b = Some c.
Proof.
  unfold outs. rewrite list_elem_of_omap. split.
  - intros ([a b] & Hin & Hc). eauto.
  - intros (a & b & Hin & Hc). exists (a, b). auto.
Qed.

Lemma elem_of_absorbed t cands :
  t ∈ absorbed cands ↔
  ∃ a b, (a, b) ∈ cands ∧ is_Some (combine_terms a b) ∧ (t = a ∨ t = b).
Proof.
  induction cands as [|[a b] cands IH].
  - unfold absorbed. simpl. split; [set_solver|]. intros (a & b & H & _).
    apply elem_of_nil in H. contradiction.
  - rewrite absorbed_cons. split.
    + destruct (combine_terms a b) as [c|] eqn:E.
      * rewrite !elem_of_union, !elem_of_singleton, IH.
        intros [->|[->|(a' & b' & Hin & Hs & Ht)]].
        -- exists a, b. rewrite E. split; [constructor|]. eauto.
        -- exists a, b. rewrite E. split; [constructor|]. eauto.
        -- exists a', b'. split; [constructor; assumption|]. eauto.
      * rewrite IH. intros (a' & b' & Hin & Hs & Ht).
        exists a', b'. split; [constructor; assumption|]. eauto.
    + intros (a' & b' & Hin & Hs & Ht). apply elem_of_cons in Hin.
      destruct Hin as [[= -> ->]|Hin].
      * destruct Hs as [c ->]. set_solver.
      * assert (t ∈ absorbed cands) by (apply IH; eauto).
        destruct (combine_terms a b); set_solver.
Qed.

Lemma merge_pair_fold cands (ng : gmap nat (list string)) (u : gset string) :
  for_each cands (λ p st, merge_pair p.1 p.2 st) (ng, u) =
  match distribute (outs cands) ng with
  | Some ng' => Some (ng', absorbed cands ∪ u)
  | None => None
  end.
Proof.
  revert ng u. induction cands as [|[a b] cands IH]; intros ng u.
  - simpl. f_equal. f_equal. unfold absorbed. simpl. set_solver.
  - rewrite outs_cons, absorbed_cons. cbn [for_each fst snd]. unfold merge_pair at 1.
    destruct (combine_terms a b) as [c|] eqn:E.
    + rewrite (combine_terms_truthy _ _ _ E). unfold distribute. cbn [for_each].
      destruct (append_to (count_ones c) c ng) as [ng1|]; [|reflexivity].
      fold (distribute (outs cands) ng1). rewrite IH.
      destruct (distribute (outs cands) ng1); [|reflexivity].
      f_equal. f_equal. set_solver.
    + apply IH.
Qed.

Lemma elem_of_candidates num_inputs groups a b :
  (a, b) ∈ candidates num_inputs groups ↔
  ∃ i, i < Z.to_nat num_inputs ∧ a ∈ bucket groups i ∧ b ∈ bucket groups (S i).
Proof.
  unfold candidates, range. rewrite list_elem_of_bind. split.
  - intros (i & Hin & Hi). apply elem_of_seq in Hi.
    apply list_elem_of_bind in Hin as (t1 & Hin & Ht1).
    apply list_elem_of_bind in Hin as (t2 & Hin & Ht2).
    apply list_elem_of_singleton in Hin as [= -> ->].
    exists i. split; [lia|]. split; assumption.
  - intros (i & Hi & Ha & Hb). exists i. split; [|apply elem_of_seq; lia].
    apply list_elem_of_bind. exists a. split; [|assumption].
    apply list_elem_of_bind. exists b. split; [|assumption].
    apply list_elem_of_singleton. reflexivity.
Qed.

Lemma merge_pass_candidates num_inputs groups :
  grouped num_inputs groups →
  merge_pass num_inputs groups =
  for_each (candidates num_inputs groups) (λ p st, merge_pair p.1 p.2 st)
           (empty_groups num_inputs, ∅).
Proof.
  intros [Hkeys _]. unfold merge_pass, candidates. rewrite for_each_bind.
  apply for_each_ext. intros i st Hi. apply elem_of_seq in Hi.
  destruct (proj2 (Hkeys i)) as [gi Hgi]; [lia|].
  destruct (proj2 (Hkeys (S i))) as [gi1 Hgi1]; [lia|].
  unfold bucket. rewrite Hgi, Hgi1. simpl. rewrite for_each_bind.
  apply for_each_ext. intros t1 st1 _. rewrite for_each_bind.
  apply for_each_ext. intros t2 st2 _. simpl.
  destruct (merge_pair t1 t2 st2); reflexivity.
Qed.

(** What a successful merge of a visited pair looks like. *)
Lemma outs_inv num_inputs groups c :
  grouped num_inputs groups → c ∈ outs (candidates num_inputs groups) →
  ∃ a b, a ∈ bucket groups (count_ones a) ∧ b ∈ bucket groups (count_ones b) ∧
         count_ones b = S (count_ones a) ∧ count_ones a < Z.to_nat num_inputs ∧
         well_formed num_inputs a = true ∧ well_formed num_inputs b = true ∧
         combine_terms a b = Some c ∧ one_diff a b c ∧
         well_formed num_inputs c = true.
Proof.
  intros [_ Hwf] (a & b & Hin & Hc)%elem_of_outs.
  apply elem_of_candidates in Hin as (i & Hi & Ha & Hb).
  destruct (Hwf _ _ Ha) as [Hwa Hca], (Hwf _ _ Hb) as [Hwb Hcb].
  assert (one_diff a b c) as Hd.
  { apply combine_terms_one_diff; [|assumption].
    apply (well_formed_same_length _ _ _ Hwa Hwb). }
  exists a, b. rewrite Hca, Hcb. repeat split; try assumption.
  apply (one_diff_well_formed _ _ _ _ Hd Hwa).
Qed.

Lemma well_formed_count_lt num_inputs t :
  well_formed num_inputs t = true → count_ones t < Z.to_nat (num_inputs + 1).
Proof.
  intros H%well_formed_length. pose proof (count_le_length "1" t).
  unfold count_ones. lia.
Qed.

Lemma merge_pass_spec num_inputs groups :
  grouped num_inputs groups →
  ∃ next_groups,
    merge_pass num_inputs groups =
      Some (next_groups, absorbed (candidates num_inputs groups)) ∧
    ∀ k, next_groups !! k =
         if decide (k < Z.to_nat (num_inputs + 1))
         then Some (filter (λ t, count_ones t = k) (outs (candidates num_inputs groups)))
         else None.
Proof.
  intros Hg. rewrite (merge_pass_candidates _ _ Hg), merge_pair_fold.
  destruct (distribute_spec (outs (candidates num_inputs groups))
              (empty_groups num_inputs)) as (ng & Hd & Hlook).
  { intros t Ht. rewrite empty_groups_lookup.
    destruct (outs_inv _ _ _ Hg Ht) as (a & b & _ & _ & _ & _ & _ & _ & _ & _ & Hw).
    pose proof (well_formed_count_lt _ _ Hw).
    destruct (decide (count_ones t < Z.to_nat (num_inputs + 1))); [eauto|lia]. }
  exists ng. rewrite Hd. split.
  - rewrite union_empty_r_L. reflexivity.
  - intros k. rewrite Hlook, empty_groups_lookup.
    destruct (decide (k < Z.to_nat (num_inputs + 1))); reflexivity.
Qed.

Lemma bucket_next num_inputs groups next_groups used k :
  grouped num_inputs groups →
  merge_pass num_inputs groups = Some (next_groups, used) →
  used = absorbed (candidates num_inputs groups) ∧
  bucket next_groups k =
    if decide (k < Z.to_nat (num_inputs + 1))
    then filter (λ t, count_ones t = k) (outs (candidates num_inputs groups))
    else [].
Proof.
  intros Hg Hp. destruct (merge_pass_spec _ _ Hg) as (ng & Hp' & Hlook).
  rewrite Hp in Hp'. injection Hp' as -> ->. split; [reflexivity|].
  unfold bucket. rewrite Hlook.
  destruct (decide (k < Z.to_nat (num_inputs + 1))); reflexivity.
Qed.

Lemma elem_of_bucket_next num_inputs groups next_groups used k t :
  grouped num_inputs groups →
  merge_pass num_inputs groups = Some (next_groups, used) →
  t ∈ bucket next_groups k ↔
  count_ones t = k ∧ t ∈ outs (candidates num_inputs groups).
Proof.
  intros Hg Hp. destruct (bucket_next _ _ _ _ k Hg Hp) as [_ ->].
  destruct (decide (k < Z.to_nat (num_inputs + 1))).
  - rewrite list_elem_of_filter. reflexivity.
  - split; [intros H; apply elem_of_nil in H; contradiction|]. intros [<- Ht].
    destruct (outs_inv _ _ _ Hg Ht) as (a & b & _ & _ & _ & _ & _ & _ & _ & _ & Hw).
    pose proof (well_formed_count_lt _ _ Hw). lia.
Qed.

Lemma grouped_next num_inputs groups next_groups used :
  grouped num_inputs groups →
  merge_pass num_inputs groups = Some (next_groups, used) →
  grouped num_inputs next_groups.
Proof.
  intros Hg Hp. split.
  - intros k. destruct (merge_pass_spec _ _ Hg) as (ng & Hp' & Hlook).
    rewrite Hp in Hp'. injection Hp' as -> _. rewrite Hlook.
    destruct (decide (k < Z.to_nat (num_inputs + 1))); split; try eauto; try lia.
    intros [? [=]].
  - intros k t Ht. apply (elem_of_bucket_next _ _ _ _ _ _ Hg Hp) in Ht as [Hk Ht].
    destruct (outs_inv _ _ _ Hg Ht) as (a & b & _ & _ & _ & _ & _ & _ & _ & _ & Hw).
    auto.
Qed.

(** ** The grouping step *)

Lemma group_fold num_inputs minterms (groups : gmap nat (list string)) warnings :
  for_each minterms (group_step num_inputs) (groups, warnings) =
  match distribute (filter (λ t, well_formed num_inputs t = true) minterms) groups with
  | Some groups' =>
      Some (groups', warnings ++ filter (λ t, well_formed num_inputs t ≠ true) minterms)
  | None => None
  end.
Proof.
  revert groups warnings. induction minterms as [|t ms IH]; intros groups warnings.
  - simpl. rewrite app_nil_r. reflexivity.
  - cbn [for_each]. unfold group_step at 1. rewrite !filter_cons.
    destruct (well_formed num_inputs t) eqn:E; simpl.
    + unfold distribute. cbn [for_each].
      destruct (append_to (count_ones t) t groups) as [g1|]; [|reflexivity].
      apply IH.
    + rewrite IH. destruct (distribute _ groups); [|reflexivity].
      rewrite <- app_assoc. reflexivity.
Qed.

Lemma group_minterms_spec num_inputs minterms :
  ∃ groups,
    group_minterms num_inputs minterms =
      Some (groups, filter (λ t, well_formed num_inputs t ≠ true) minterms) ∧
    ∀ k, groups !! k =
         if decide (k < Z.to_nat (num_inputs + 1))
         then Some (filter (λ t, count_ones t = k)
                      (filter (λ t, well_formed num_inputs t = true) minterms))
         else None.
Proof.
  unfold group_minterms. rewrite group_fold.
  destruct (distribute_spec (filter (λ t, well_formed num_inputs t = true) minterms)
              (empty_groups num_inputs)) as (g & Hd & Hlook).
  { intros t [Hw _]%list_elem_of_filter. rewrite empty_groups_lookup.
    pose proof (well_formed_count_lt _ _ Hw).
    destruct (decide (count_ones t < Z.to_nat (num_inputs + 1))); [eauto|lia]. }
  exists g. rewrite Hd. split; [reflexivity|].
  intros k. rewrite Hlook, empty_groups_lookup.
  destruct (decide (k < Z.to_nat (num_inputs + 1))); reflexivity.
Qed.

Lemma elem_of_bucket_initial num_inputs minterms groups warnings k t :
  group_minterms num_inputs minterms = Some (groups, warnings) →
  t ∈ bucket groups k ↔
  count_ones t = k ∧ well_formed num_inputs t = true ∧ t ∈ minterms.
Proof.
  intros Hgm. destruct (group_minterms_spec num_inputs minterms) as (g & Hg & Hlook).
  rewrite Hgm in Hg. injection Hg as -> _. unfold bucket. rewrite Hlook.
  destruct (decide (k < Z.to_nat (num_inputs + 1))); simpl.
  - rewrite !list_elem_of_filter. reflexivity.
  - split; [intros H; apply elem_of_nil in H; contradiction|].
    intros (<- & Hw & _). pose proof (well_formed_count_lt _ _ Hw). lia.
Qed.

Lemma grouped_initial num_inputs minterms groups warnings :
  group_minterms num_inputs minterms = Some (groups, warnings) →
  grouped num_inputs groups.
Proof.
  intros Hgm. split.
  - intros k. destruct (group_minterms_spec num_inputs minterms) as (g & Hg & Hlook).
    rewrite Hgm in Hg. injection Hg as -> _. rewrite Hlook.
    destruct (decide (k < Z.to_nat (num_inputs + 1))); split; try eauto; try lia.
    intros [? [=]].
  - intros k t Ht. apply (elem_of_bucket_initial _ _ _ _ _ _ Hgm) in Ht. tauto.
Qed.

(** ** Collecting the unused terms, and the stop test *)

Lemma elem_of_values (groups : gmap nat (list string)) t :
  (∃ l, l ∈ values groups ∧ t ∈ l) ↔ ∃ k, t ∈ bucket groups k.
Proof.
  unfold values, bucket. split.
  - intros (l & Hl & Ht). apply list_elem_of_fmap in Hl as ([k l'] & -> & Hkl).
    apply elem_of_map_to_list in Hkl. exists k. rewrite Hkl. exact Ht.
  - intros (k & Ht). destruct (groups !! k) as [l|] eqn:E; simpl in Ht.
    + exists l. split; [|assumption]. apply list_elem_of_fmap. exists (k, l).
      split; [reflexivity|]. apply elem_of_map_to_list. assumption.
    + apply elem_of_nil in Ht. contradiction.
Qed.

Lemma elem_of_add_unused (l : list string) (used acc : gset string) t :
  t ∈ foldl (add_unused used) acc l ↔ t ∈ acc ∨ (¬ t ∈ used ∧ t ∈ l).
Proof.
  revert acc. induction l as [|x l IH]; intros acc.
  - simpl. split; [auto|]. intros [H|[_ H]]; [assumption|].
    apply elem_of_nil in H. contradiction.
  - cbn [foldl]. rewrite IH, elem_of_cons. unfold add_unused.
    destruct (decide (x ∈ used)).
    + split; [tauto|]. intros [H|[Hn [->|H]]]; tauto.
    + rewrite elem_of_union, elem_of_singleton. split; [|tauto].
      intros [[->|H]|H]; tauto.
Qed.

Lemma elem_of_collect_list (ls : list (list string)) (used acc : gset string) t :
  t ∈ foldl (λ acc group, foldl (add_unused used) acc group) acc ls ↔
  t ∈ acc ∨ (¬ t ∈ used ∧ ∃ l, l ∈ ls ∧ t ∈ l).
Proof.
  revert acc. induction ls as [|l ls IH]; intros acc.
  - simpl. split; [auto|]. intros [H|(_ & l & Hl & _)]; [assumption|].
    apply elem_of_nil in Hl. contradiction.
  - cbn [foldl]. rewrite IH, elem_of_add_unused. clear IH. split.
    + intros [[H|[Hn H]]|(Hn & l' & Hl' & H)]; [tauto| |].
      * right. split; [assumption|]. exists l. split; [constructor|assumption].
      * right. split; [assumption|]. exists l'. split; [constructor|]; assumption.
    + intros [H|(Hn & l' & Hl' & H)]; [tauto|].
      apply elem_of_cons in Hl' as [->|Hl']; [tauto|]. right. eauto.
Qed.

Lemma elem_of_collect groups used prime_implicants t :
  t ∈ collect groups used prime_implicants ↔
  t ∈ prime_implicants ∨ (¬ t ∈ used ∧ ∃ k, t ∈ bucket groups k).
Proof. unfold collect. rewrite elem_of_collect_list, elem_of_values. reflexivity. Qed.

Lemma any_nonempty_true groups :
  any_nonempty groups = true ↔ ∃ k t, t ∈ bucket groups k.
Proof.
  unfold any_nonempty. rewrite existsb_exists. split.
  - intros (l & Hl & Hne). destruct l as [|t l]; [discriminate|].
    destruct (proj1 (elem_of_values groups t)) as [k Hk]; [|eauto].
    exists (t :: l). split; [apply list_elem_of_In; assumption|constructor].
  - intros (k & t & Ht). destruct (proj2 (elem_of_values groups t)) as (l & Hl & Htl); [eauto|].
    exists l. split; [apply list_elem_of_In; assumption|].
    destruct l; [apply elem_of_nil in Htl; contradiction|reflexivity].
Qed.

(** ** The loop *)

Lemma elem_of_sorted t prime_implicants :
  t ∈ sorted prime_implicants ↔ t ∈ prime_implicants.
Proof.
  unfold sorted. rewrite (merge_sort_Permutation str_le), elem_of_elements.
  reflexivity.
Qed.

Lemma count_ones_dashes t : count_ones t + dashes t ≤ String.length t.
Proof.
  unfold count_ones, dashes. induction t as [|x t IH]; simpl; [lia|].
  destruct (Ascii.eqb_spec x "1") as [->|]; simpl; [lia|].
  destruct (Ascii.eqb x "-"); lia.
Qed.

Lemma generation_grouped num_inputs minterms k groups :
  generation num_inputs minterms k groups → grouped num_inputs groups.
Proof.
  induction 1 as [g w Hg|k g ng u _ IH Hp].
  - apply (grouped_initial _ _ _ _ Hg).
  - apply (grouped_next _ _ _ _ IH Hp).
Qed.

(** The terms of generation [k] have at least [k] don't-cares. *)
Lemma generation_dashes num_inputs minterms k groups i t :
  generation num_inputs minterms k groups → t ∈ bucket groups i → k ≤ dashes t.
Proof.
  intros Hgen. revert i t. induction Hgen as [g w Hg|k g ng u Hgen IH Hp]; intros i t Ht.
  - lia.
  - pose proof (generation_grouped _ _ _ _ Hgen) as Hgr.
    apply (elem_of_bucket_next _ _ _ _ _ _ Hgr Hp) in Ht as [_ Ht].
    destruct (outs_inv _ _ _ Hgr Ht) as (a & b & _ & Hb & Hab & _ & _ & _ & _ & Hd & _).
    destruct (one_diff_counts _ _ _ Hd Hab) as [_ ->].
    specialize (IH _ _ Hb). lia.
Qed.

(** A run that returns has made at least one pass, and the number of passes
    it reports does not depend on the bound given to the model. *)
Lemma qm_loop_fuel fuel num_inputs groups prime_implicants passes passes' result :
  qm_loop fuel num_inputs groups prime_implicants passes = Done passes' result →
  passes < passes' ∧
  ∀ fuel', passes' - passes ≤ fuel' →
    qm_loop fuel' num_inputs groups prime_implicants passes = Done passes' result.
Proof.
  revert groups prime_implicants passes.
  induction fuel as [|fuel IH]; intros g pis p; [discriminate|].
  cbn [qm_loop]. destruct (merge_pass num_inputs g) as [[ng u]|] eqn:Hp; [|discriminate].
  destruct (any_nonempty ng) eqn:Hne; cbn [negb].
  - intros H. destruct (IH _ _ _ H) as [Hlt Hf]. split; [lia|].
    intros [|f'] Hle; [lia|]. cbn [qm_loop]. rewrite Hp, Hne. cbn [negb].
    apply Hf. lia.
  - intros [= <- <-]. split; [lia|].
    intros [|f'] Hle; [lia|]. cbn [qm_loop]. rewrite Hp, Hne. reflexivity.
Qed.

Lemma qm_loop_terminates num_inputs k fuel groups prime_implicants passes :
  grouped num_inputs groups →
  (∀ i t, t ∈ bucket groups i → k ≤ dashes t) →
  Z.to_nat num_inputs - k < fuel →
  ∃ passes' result,
    qm_loop fuel num_inputs groups prime_implicants passes = Done passes' result ∧
    passes' ≤ passes + (Z.to_nat num_inputs - k) + 1.
Proof.
  revert k groups prime_implicants passes.
  induction fuel as [|fuel IH]; intros k g pis p Hgr Hk Hfuel; [lia|].
  cbn [qm_loop]. destruct (merge_pass_spec _ _ Hgr) as (ng & Hp & _). rewrite Hp.
  destruct (any_nonempty ng) eqn:Hne; cbn [negb].
  - apply any_nonempty_true in Hne as (j & t & Ht).
    apply (elem_of_bucket_next _ _ _ _ _ _ Hgr Hp) in Ht as [_ Ht].
    destruct (outs_inv _ _ _ Hgr Ht) as (a & b & _ & Hb & Hab & _ & _ & Hwb & _ & Hd & _).
    assert (k < Z.to_nat num_inputs) as Hlt.
    { pose proof (Hk _ _ Hb). pose proof (count_ones_dashes b).
      apply well_formed_length in Hwb. lia. }
    destruct (IH (S k) ng (collect g (absorbed (candidates num_inputs g)) pis) (S p))
      as (p' & r & Hr & Hle).
    + apply (grouped_next _ _ _ _ Hgr Hp).
    + intros i t' Ht'. apply (elem_of_bucket_next _ _ _ _ _ _ Hgr Hp) in Ht' as [_ Ht'].
      destruct (outs_inv _ _ _ Hgr Ht') as (a' & b' & _ & Hb' & Hab' & _ & _ & _ & _ & Hd' & _).
      destruct (one_diff_counts _ _ _ Hd' Hab') as [_ ->].
      specialize (Hk _ _ Hb'). lia.
    + lia.
    + exists p', r. split; [assumption|lia].
  - eexists _, _. split; [reflexivity|lia].
Qed.

(** ** Generations *)

Lemma generation_functional num_inputs minterms k g1 g2 :
  generation num_inputs minterms k g1 → generation num_inputs minterms k g2 → g1 = g2.
Proof.
  intros H1. revert g2. induction H1 as [g w Hg|k g ng u _ IH Hp]; intros g2 H2.
  - inversion H2 as [g' w' Hg'|]; subst. congruence.
  - inversion H2 as [|k' g' ng' u' Hgen' Hp']; subst.
    rewrite (IH _ Hgen') in Hp. congruence.
Qed.

Lemma generation_exists num_inputs minterms k :
  ∃ groups, generation num_inputs minterms k groups.
Proof.
  induction k as [|k [g Hg]].
  - destruct (group_minterms_spec num_inputs minterms) as (g & Hg & _).
    exists g. apply (generation_first _ _ _ _ Hg).
  - destruct (merge_pass_spec _ _ (generation_grouped _ _ _ _ Hg)) as (ng & Hp & _).
    exists ng. apply (generation_next _ _ _ _ _ _ Hg Hp).
Qed.

(** Once a pass has produced nothing, all later generations are empty. *)
Lemma generation_empty_later num_inputs minterms k groups j groups' i t :
  generation num_inputs minterms k groups →
  (∀ i t, ¬ t ∈ bucket groups i) →
  generation num_inputs minterms j groups' → k ≤ j →
  ¬ t ∈ bucket groups' i.
Proof.
  intros Hk Hempty Hj. revert i t.
  induction Hj as [g w Hg|j g ng u Hj IH Hp]; intros i t Hle.
  - assert (k = 0) as -> by lia.
    rewrite <- (generation_functional _ _ _ _ _ Hk (generation_first _ _ _ _ Hg)).
    apply Hempty.
  - destruct (decide (k = S j)) as [->|Hne].
    + rewrite <- (generation_functional _ _ _ _ _ Hk (generation_next _ _ _ _ _ _ Hj Hp)).
      apply Hempty.
    + intros Ht. pose proof (generation_grouped _ _ _ _ Hj) as Hgr.
      apply (elem_of_bucket_next _ _ _ _ _ _ Hgr Hp) in Ht as [_ Ht].
      destruct (outs_inv _ _ _ Hgr Ht) as (a & b & Ha & _).
      apply (IH _ a) in Ha; [assumption|lia].
Qed.

Lemma qm_loop_result num_inputs minterms fuel k groups prime_implicants passes passes' result :
  generation num_inputs minterms k groups →
  (∀ t, t ∈ prime_implicants ↔ ∃ j, j < k ∧ survivor num_inputs minterms j t) →
  qm_loop fuel num_inputs groups prime_implicants passes = Done passes' result →
  ∀ t, t ∈ result ↔ ∃ j, survivor num_inputs minterms j t.
Proof.
  revert k groups prime_implicants passes.
  induction fuel as [|fuel IH]; intros k g pis p Hgen Hpis; [discriminate|].
  cbn [qm_loop]. pose proof (generation_grouped _ _ _ _ Hgen) as Hgr.
  destruct (merge_pass_spec _ _ Hgr) as (ng & Hp & _). rewrite Hp.
  set (pis' := collect g (absorbed (candidates num_inputs g)) pis).
  assert (∀ t, t ∈ pis' ↔ ∃ j, j < S k ∧ survivor num_inputs minterms j t) as Hpis'.
  { intros t. unfold pis'. rewrite elem_of_collect, Hpis. split.
    - intros [(j & Hj & Hs)|(Hn & i & Ht)].
      + exists j. split; [lia|assumption].
      + exists k. split; [lia|]. exists g, i. auto.
    - intros (j & Hj & Hs). destruct (decide (j = k)) as [->|Hne].
      + right. destruct Hs as (g' & i & Hg' & Ht & Hn).
        rewrite (generation_functional _ _ _ _ _ Hg' Hgen) in *. eauto.
      + left. exists j. split; [lia|assumption]. }
  destruct (any_nonempty ng) eqn:Hne; cbn [negb].
  - intros Hrun.
    apply (IH (S k) ng pis' (S p) (generation_next _ _ _ _ _ _ Hgen Hp) Hpis' Hrun).
  - intros [= <- <-]. intros t. rewrite elem_of_sorted, Hpis'. split.
    + intros (j & _ & Hs). eauto.
    + intros (j & Hs). destruct (decide (j < S k)) as [Hlt|Hge]; [eauto|].
      exfalso. destruct Hs as (g' & i & Hg' & Ht & _).
      apply (generation_empty_later _ _ (S k) ng j g' i t
               (generation_next _ _ _ _ _ _ Hgen Hp)); try assumption; [|lia].
      intros i' t' Ht'. assert (any_nonempty ng = true) as Hc
        by (apply any_nonempty_true; eauto). congruence.
Qed.

(** ** Whole runs *)

Lemma quine_mccluskey_fuel_done fuel num_inputs minterms :
  Z.to_nat num_inputs < fuel →
  ∃ passes result,
    quine_mccluskey_fuel fuel num_inputs minterms = Done passes result ∧
    passes ≤ Z.to_nat num_inputs + 1.
Proof.
  intros Hfuel. unfold quine_mccluskey_fuel.
  destruct (group_minterms_spec num_inputs minterms) as (g & Hg & _). rewrite Hg.
  destruct (qm_loop_terminates num_inputs 0 fuel g ∅ 0) as (p & r & Hr & Hle).
  - apply (grouped_initial _ _ _ _ Hg).
  - intros. lia.
  - lia.
  - exists p, r. split; [assumption|lia].
Qed.

Lemma quine_mccluskey_done num_inputs minterms :
  ∃ passes result,
    quine_mccluskey num_inputs minterms = Done passes result ∧
    passes ≤ Z.to_nat num_inputs + 1.
Proof. apply quine_mccluskey_fuel_done. lia. Qed.

Lemma quine_mccluskey_fuel_stable fuel fuel' num_inputs minterms passes result :
  quine_mccluskey_fuel fuel num_inputs minterms = Done passes result →
  passes ≤ fuel' →
  quine_mccluskey_fuel fuel' num_inputs minterms = Done passes result.
Proof.
  unfold quine_mccluskey_fuel.
  destruct (group_minterms num_inputs minterms) as [[g w]|]; [|discriminate].
  intros H Hle. apply (qm_loop_fuel _ _ _ _ _ _ _ H). lia.
Qed.

Lemma quine_mccluskey_result fuel num_inputs minterms passes result :
  quine_mccluskey_fuel fuel num_inputs minterms = Done passes result →
  ∀ t, t ∈ result ↔ ∃ j, survivor num_inputs minterms j t.
Proof.
  unfold quine_mccluskey_fuel.
  destruct (group_minterms num_inputs minterms) as [[g w]|] eqn:Hg; [|discriminate].
  apply (qm_loop_result num_inputs minterms fuel 0).
  - apply (generation_first _ _ _ _ Hg).
  - intros t. split; [set_solver|]. intros (j & Hj & _). lia.
Qed.

(** C3 (as amended): the loop of [quine_mccluskey] always terminates, after
    at most [num_inputs + 1] passes (one pass when [num_inputs] is negative):
    if more than [num_inputs] passes are allowed, the run returns, and the
    number of passes it made is at most [num_inputs + 1]. *)
Theorem passes_bound (fuel : nat) (num_inputs : Z) (minterms : list string) :
  Z.to_nat num_inputs < fuel →
  ∃ passes result,
    quine_mccluskey_fuel fuel num_inputs minterms = Done passes result ∧
    passes ≤ Z.to_nat num_inputs + 1.
Proof. apply quine_mccluskey_fuel_done. Qed.

Lemma passes_bound_witness :
  ∃ passes result,
    quine_mccluskey_fuel 4 3 ["000"; "001"; "010"; "011"] = Done passes result ∧
    passes ≤ Z.to_nat 3 + 1.
Proof. apply (passes_bound 4 3 ["000"; "001"; "010"; "011"]). simpl. lia. Defined.

(** The bound [num_inputs] of the claim is one too small: for width 1 and
    minterms ["0"], ["1"] the first pass merges the two terms and a second pass
    is needed to find that ["-"] merges with nothing.  With one pass allowed
    the run is not finished. *)
Lemma passes_exceed_width :
  quine_mccluskey 1 ["0"; "1"] = Done 2 ["-"] ∧
  quine_mccluskey_fuel (Z.to_nat 1) 1 ["0"; "1"] = Out_of_fuel ∧
  ¬ (2 ≤ Z.to_nat 1).
Proof.
  split; [vm_compute; reflexivity|]. split; [vm_compute; reflexivity|].
  simpl. lia.
Qed.

(** ** Safety of the dictionary accesses *)

Lemma well_formed_iff num_inputs t :
  well_formed num_inputs t = true ↔
  Z.of_nat (String.length t) = num_inputs ∧ all_symbols_ok t = true.
Proof. unfold well_formed. rewrite andb_true_iff, Z.eqb_eq. reflexivity. Qed.

Lemma combine_well_formed num_inputs a b c :
  well_formed num_inputs a = true → well_formed num_inputs b = true →
  combine_terms a b = Some c →
  well_formed num_inputs c = true ∧ count_ones c < Z.to_nat (num_inputs + 1).
Proof.
  intros Ha Hb Hc.
  apply combine_terms_one_diff in Hc; [|apply (well_formed_same_length _ _ _ Ha Hb)].
  pose proof (one_diff_well_formed _ _ _ _ Hc Ha) as Hw.
  split; [assumption|apply (well_formed_count_lt _ _ Hw)].
Qed.

Lemma quine_mccluskey_fuel_no_key_error fuel num_inputs minterms :
  quine_mccluskey_fuel fuel num_inputs minterms ≠ Key_error.
Proof.
  unfold quine_mccluskey_fuel.
  destruct (group_minterms_spec num_inputs minterms) as (g & Hg & _). rewrite Hg.
  pose proof (grouped_initial _ _ _ _ Hg) as Hgr. clear Hg.
  generalize (∅ : gset string) 0. revert g Hgr.
  induction fuel as [|fuel IH]; intros g Hgr pis p; [discriminate|].
  cbn [qm_loop]. destruct (merge_pass_spec _ _ Hgr) as (ng & Hp & _). rewrite Hp.
  destruct (any_nonempty ng); cbn [negb]; [|discriminate].
  apply IH, (grouped_next _ _ _ _ Hgr Hp).
Qed.

(** C10: for every width [num_inputs >= 0] and every input list, no access
    to a group dictionary fails: the grouping step and every pass run to
    their end, so no run raises [KeyError]; every term stored in a
    generation's groups sits under its own 1-count, which is a key in
    [0..num_inputs]; a term merged from two terms of length [num_inputs] has
    its 1-count in that range too; and every term of every generation and of
    the output has length [num_inputs] and symbols in ['0'], ['1'], ['-']. *)
Theorem index_safety (num_inputs : Z) (minterms : list string) :
  (0 ≤ num_inputs)%Z →
  is_Some (group_minterms num_inputs minterms) ∧
  (∀ k groups, generation num_inputs minterms k groups →
     is_Some (merge_pass num_inputs groups) ∧
     ∀ i t, t ∈ bucket groups i →
       is_Some (groups !! i) ∧ count_ones t = i ∧ (Z.of_nat i ≤ num_inputs)%Z ∧
       Z.of_nat (String.length t) = num_inputs ∧ all_symbols_ok t = true) ∧
  (∀ a b c, well_formed num_inputs a = true → well_formed num_inputs b = true →
     combine_terms a b = Some c →
     (Z.of_nat (count_ones c) ≤ num_inputs)%Z ∧
     Z.of_nat (String.length c) = num_inputs ∧ all_symbols_ok c = true) ∧
  (∀ fuel, quine_mccluskey_fuel fuel num_inputs minterms ≠ Key_error) ∧
  (∀ fuel passes result t,
     quine_mccluskey_fuel fuel num_inputs minterms = Done passes result →
     t ∈ result →
     Z.of_nat (String.length t) = num_inputs ∧ all_symbols_ok t = true).
Proof.
  intros Hpos. split; [|split; [|split; [|split]]].
  - destruct (group_minterms_spec num_inputs minterms) as (g & Hg & _). rewrite Hg. eauto.
  - intros k g Hgen. pose proof (generation_grouped _ _ _ _ Hgen) as Hgr. split.
    + destruct (merge_pass_spec _ _ Hgr) as (ng & Hp & _). rewrite Hp. eauto.
    + intros i t Ht. destruct (proj2 Hgr _ _ Ht) as [Hw Hc].
      pose proof (well_formed_count_lt _ _ Hw) as Hlt.
      apply well_formed_iff in Hw as [Hl Hs]. repeat split; try assumption.
      * apply (proj1 Hgr). lia.
      * lia.
  - intros a b c Ha Hb Hc. destruct (combine_well_formed _ _ _ _ Ha Hb Hc) as [Hw Hlt].
    apply well_formed_iff in Hw as [Hl Hs]. repeat split; try assumption. lia.
  - intros fuel. apply quine_mccluskey_fuel_no_key_error.
  - intros fuel p r t Hrun Ht.
    apply (quine_mccluskey_result _ _ _ _ _ Hrun) in Ht as (j & g & i & Hgen & Ht & _).
    apply well_formed_iff, (proj2 (generation_grouped _ _ _ _ Hgen) _ _ Ht).
Qed.

Lemma index_safety_witness :
  is_Some (group_minterms 2 ["00"; "01"; "1"]) ∧
  (∀ fuel, quine_mccluskey_fuel fuel 2 ["00"; "01"; "1"] ≠ Key_error).
Proof.
  destruct (index_safety 2 ["00"; "01"; "1"]) as (H1 & _ & _ & H4 & _); [lia|].
  split; assumption.
Defined.

(** ** Absorption *)

Lemma one_diff_sym a b c : one_diff a b c → one_diff b a c.
Proof.
  induction 1 as [x y r Hxy|x a b c _ IH].
  - apply one_diff_here. congruence.
  - apply one_diff_later, IH.
Qed.

Lemma combine_terms_sym a b c :
  String.length a = String.length b →
  combine_terms a b = Some c → combine_terms b a = Some c.
Proof.
  intros Hl H. apply combine_terms_one_diff; [congruence|].
  apply one_diff_sym, combine_terms_one_diff; assumption.
Qed.

Lemma absorbed_pair num_inputs groups i a b c :
  grouped num_inputs groups →
  a ∈ bucket groups i → b ∈ bucket groups (S i) → combine_terms a b = Some c →
  a ∈ absorbed (candidates num_inputs groups) ∧
  b ∈ absorbed (candidates num_inputs groups).
Proof.
  intros Hgr Ha Hb Hc.
  assert ((a, b) ∈ candidates num_inputs groups) as Hin.
  { apply elem_of_candidates. exists i. split; [|split; assumption].
    destruct (proj2 Hgr _ _ Hb) as [Hw Hcnt].
    pose proof (well_formed_count_lt _ _ Hw). lia. }
  split; apply elem_of_absorbed; exists a, b; rewrite Hc; eauto.
Qed.

(** C4: in every pass, two terms that sit in adjacent 1-count groups of the
    current generation and are both outside [used] when the pass ends do not
    combine, whichever of the two is taken first.  So a term the pass adds to
    [prime_implicants] combines with no other unabsorbed term of an adjacent
    1-count of that pass. *)
Theorem absorption_invariant (num_inputs : Z) (minterms : list string) (k : nat)
    (groups next_groups : gmap nat (list string)) (used : gset string)
    (i j : nat) (t s : string) :
  generation num_inputs minterms k groups →
  merge_pass num_inputs groups = Some (next_groups, used) →
  t ∈ bucket groups i → s ∈ bucket groups j → j = S i ∨ i = S j →
  ¬ t ∈ used → ¬ s ∈ used →
  combine_terms t s = None.
Proof.
  intros Hgen Hp Ht Hs Hadj Hnt Hns.
  pose proof (generation_grouped _ _ _ _ Hgen) as Hgr.
  destruct (bucket_next _ _ _ _ 0 Hgr Hp) as [-> _].
  destruct (combine_terms t s) as [c|] eqn:Hc; [exfalso|reflexivity].
  destruct Hadj as [->| ->].
  - destruct (absorbed_pair _ _ _ _ _ _ Hgr Ht Hs Hc). contradiction.
  - apply combine_terms_sym in Hc.
    + destruct (absorbed_pair _ _ _ _ _ _ Hgr Hs Ht Hc). contradiction.
    + apply (well_formed_same_length num_inputs);
        [apply (proj2 Hgr _ _ Ht)|apply (proj2 Hgr _ _ Hs)].
Qed.

Lemma absorption_invariant_witness : combine_terms "001" "110" = None.
Proof.
  apply (absorption_invariant 3 ["001"; "110"] 0
           (default ∅ (fst <$> group_minterms 3 ["001"; "110"]))
           (default ∅ (fst <$> merge_pass 3
              (default ∅ (fst <$> group_minterms 3 ["001"; "110"]))))
           ∅ 1 2).
  - apply (generation_first _ _ _ []). vm_compute. reflexivity.
  - vm_compute. reflexivity.
  - vm_compute. constructor.
  - vm_compute. constructor.
  - left. reflexivity.
  - apply not_elem_of_empty.
  - apply not_elem_of_empty.
Defined.

(** ** Coverage *)

Lemma covers_positions t m :
  covers t m = true ↔
  String.length t = String.length m ∧
  ∀ i, i < String.length m →
       String.get i t = Some "-"%char ∨ String.get i t = String.get i m.
Proof.
  revert m. induction t as [|x t IH]; intros [|y m]; simpl.
  - split; [|reflexivity]. intros _. split; [reflexivity|]. intros i Hi. lia.
  - split; [discriminate|]. intros [H _]. discriminate.
  - split; [discriminate|]. intros [H _]. discriminate.
  - rewrite andb_true_iff, orb_true_iff, IH, !Ascii.eqb_eq. split.
    + intros [Hx [Hl Hpos]]. split; [lia|]. intros [|i] Hi.
      * destruct Hx as [->| ->]; auto.
      * apply Hpos. lia.
    + intros [Hl Hpos]. split; [|split; [lia|]].
      * destruct (Hpos 0) as [[=]|[=]]; [lia|auto..].
      * intros i Hi. apply (Hpos (S i)). lia.
Qed.

Lemma is_bits_symbols m : is_bits m = true → all_symbols_ok m = true.
Proof.
  induction m as [|x m IH]; simpl; [reflexivity|].
  intros [Hx Hm]%andb_prop. unfold symbol_ok. rewrite Hx, (IH Hm). reflexivity.
Qed.

(** Every term of every generation is covered by a term that some generation
    leaves unabsorbed. *)
Lemma covered_by_survivor num_inputs minterms d k groups i t :
  generation num_inputs minterms k groups → t ∈ bucket groups i →
  Z.to_nat num_inputs - k ≤ d →
  ∃ j t', survivor num_inputs minterms j t' ∧ covers t' t = true.
Proof.
  revert k groups i t. induction d as [|d IH]; intros k g i t Hgen Ht Hd;
    pose proof (generation_grouped _ _ _ _ Hgen) as Hgr;
    (destruct (decide (t ∈ absorbed (candidates num_inputs g))) as [Hab|Hnab];
      [|exists k, t; split; [exists g, i; auto|apply covers_refl]]);
    apply elem_of_absorbed in Hab as (a & b & Hin & [c Hc] & Hor);
    assert (c ∈ outs (candidates num_inputs g)) as Hout
      by (apply elem_of_outs; eauto);
    destruct (outs_inv _ _ _ Hgr Hout)
      as (a' & b' & _ & Hb' & Hab' & _ & _ & Hwb' & _ & _ & _);
    pose proof (generation_dashes _ _ _ _ _ _ Hgen Hb') as Hdash;
    pose proof (count_ones_dashes b') as Hcd;
    apply well_formed_length in Hwb'; [lia|].
  destruct (merge_pass_spec _ _ Hgr) as (ng & Hp & _).
  assert (c ∈ bucket ng (count_ones c)) as Hcn
    by (apply (elem_of_bucket_next _ _ _ _ _ _ Hgr Hp); auto).
  destruct (IH (S k) ng _ c (generation_next _ _ _ _ _ _ Hgen Hp) Hcn)
    as (j & t' & Hs & Hcov); [lia|].
  exists j, t'. split; [assumption|]. apply (covers_trans _ c); [assumption|].
  apply elem_of_candidates in Hin as (i0 & _ & Ha & Hb).
  assert (one_diff a b c) as Hod.
  { apply combine_terms_one_diff; [|assumption].
    apply (well_formed_same_length num_inputs);
      [apply (proj2 Hgr _ _ Ha)|apply (proj2 Hgr _ _ Hb)]. }
  destruct (one_diff_covers _ _ _ Hod). destruct Hor as [-> | ->]; assumption.
Qed.

(** C9: every well-formed minterm of the input (length [num_inputs], symbols
    ['0'] and ['1']) is covered by a term of the output of [quine_mccluskey]:
    a term of the same length that has, at every position, ['-'] or the
    minterm's symbol. *)
Theorem coverage (num_inputs : Z) (minterms : list string) (m : string) :
  m ∈ minterms → Z.of_nat (String.length m) = num_inputs → is_bits m = true →
  ∃ passes result t,
    quine_mccluskey num_inputs minterms = Done passes result ∧ t ∈ result ∧
    String.length t = String.length m ∧
    ∀ i, i < String.length m →
         String.get i t = Some "-"%char ∨ String.get i t = String.get i m.
Proof.
  intros Hin Hlen Hbits.
  destruct (quine_mccluskey_done num_inputs minterms) as (p & r & Hrun & _).
  destruct (group_minterms_spec num_inputs minterms) as (g & Hg & _).
  assert (m ∈ bucket g (count_ones m)) as Hm.
  { apply (elem_of_bucket_initial _ _ _ _ _ _ Hg). split; [reflexivity|].
    split; [|assumption]. apply well_formed_iff. split; [assumption|].
    apply is_bits_symbols, Hbits. }
  destruct (covered_by_survivor num_inputs minterms (Z.to_nat num_inputs) 0 g _ m
              (generation_first _ _ _ _ Hg) Hm) as (j & t & Hs & Hcov); [lia|].
  exists p, r, t. split; [assumption|]. split.
  - apply (quine_mccluskey_result _ _ _ _ _ Hrun). eauto.
  - apply covers_positions, Hcov.
Qed.

Lemma coverage_witness :
  ∃ passes result t,
    quine_mccluskey 3 ["000"; "001"; "101"] = Done passes result ∧ t ∈ result ∧
    String.length t = String.length "101" ∧
    ∀ i, i < String.length "101" →
         String.get i t = Some "-"%char ∨ String.get i t = String.get i "101".
Proof.
  apply (coverage 3 ["000"; "001"; "101"] "101").
  - vm_compute. do 2 constructor. constructor.
  - reflexivity.
  - reflexivity.
Defined.

(** ** The worked example of the specification *)

(** C5: for width 3 and minterms 000, 001, 010, 011 the first pass merges
    000/001 into 00- and 010/011 into 01- (and absorbs all four minterms), the
    second pass merges 00- and 01- into 0--, and the run returns exactly the
    one-element list 0--. *)
Theorem scenario_three_inputs :
  ∃ g0 g1 g2 used0 used1,
    group_minterms 3 ["000"; "001"; "010"; "011"] = Some (g0, []) ∧
    merge_pass 3 g0 = Some (g1, used0) ∧
    merge_pass 3 g1 = Some (g2, used1) ∧
    combine_terms "000" "001" = Some "00-" ∧
    combine_terms "010" "011" = Some "01-" ∧
    bucket g1 0 = ["00-"; "0-0"] ∧ bucket g1 1 = ["0-1"; "01-"] ∧
    used0 = {["000"; "001"; "010"; "011"]} ∧
    combine_terms "00-" "01-" = Some "0--" ∧
    bucket g2 0 = ["0--"; "0--"] ∧
    used1 = {["00-"; "0-0"; "0-1"; "01-"]} ∧
    quine_mccluskey 3 ["000"; "001"; "010"; "011"] = Done 3 ["0--"].
Proof.
  eexists _, _, _, _, _.
  split; [vm_compute; reflexivity|].
  split; [vm_compute; reflexivity|].
  split; [vm_compute; reflexivity|].
  repeat split; vm_compute; reflexivity.
Qed.

(** ** Malformed input terms *)

Lemma all_symbols_ok_positions t :
  all_symbols_ok t = true ↔
  ∀ i c, String.get i t = Some c → c = "0"%char ∨ c = "1"%char ∨ c = "-"%char.
Proof.
  induction t as [|x t IH]; simpl.
  - split; [|reflexivity]. intros _ i c. discriminate.
  - unfold symbol_ok. rewrite andb_true_iff, !orb_true_iff, !Ascii.eqb_eq, IH. split.
    + intros [Hx Ht] [|i] c; [intros [= <-]; tauto|apply Ht].
    + intros H. split; [specialize (H 0 x eq_refl); tauto|].
      intros i c. apply (H (S i)).
Qed.

Lemma filter_well_formed_idem num_inputs (l : list string) :
  filter (λ t, well_formed num_inputs t = true)
         (filter (λ t, well_formed num_inputs t = true) l) =
  filter (λ t, well_formed num_inputs t = true) l.
Proof.
  induction l as [|t l IH]; [reflexivity|]. rewrite filter_cons.
  destruct (decide (well_formed num_inputs t = true)) as [Hw|Hw]; [|assumption].
  rewrite filter_cons. destruct (decide (well_formed num_inputs t = true)); congruence.
Qed.

Lemma filter_malformed_of_well_formed num_inputs (l : list string) :
  filter (λ t, well_formed num_inputs t ≠ true)
         (filter (λ t, well_formed num_inputs t = true) l) = [].
Proof.
  induction l as [|t l IH]; [reflexivity|]. rewrite filter_cons.
  destruct (decide (well_formed num_inputs t = true)) as [Hw|Hw]; [|assumption].
  rewrite filter_cons. destruct (decide (well_formed num_inputs t ≠ true)); congruence.
Qed.

Lemma filter_well_formed_of_malformed num_inputs (l : list string) :
  filter (λ t, well_formed num_inputs t = true)
         (filter (λ t, well_formed num_inputs t ≠ true) l) = [].
Proof.
  induction l as [|t l IH]; [reflexivity|]. rewrite filter_cons.
  destruct (decide (well_formed num_inputs t ≠ true)) as [Hw|Hw]; [|assumption].
  rewrite filter_cons. destruct (decide (well_formed num_inputs t = true)); congruence.
Qed.

(** The groups only depend on the well-formed terms. *)
Lemma group_minterms_filter num_inputs minterms :
  ∃ groups,
    group_minterms num_inputs minterms =
      Some (groups, filter (λ t, well_formed num_inputs t ≠ true) minterms) ∧
    group_minterms num_inputs (filter (λ t, well_formed num_inputs t = true) minterms) =
      Some (groups, []).
Proof.
  destruct (group_minterms_spec num_inputs minterms) as (g & Hg & Hlook).
  destruct (group_minterms_spec num_inputs
              (filter (λ t, well_formed num_inputs t = true) minterms))
    as (g' & Hg' & Hlook').
  exists g. split; [assumption|].
  rewrite filter_malformed_of_well_formed in Hg'. rewrite Hg'. f_equal. f_equal.
  apply map_eq. intros k. rewrite Hlook, Hlook', filter_well_formed_idem. reflexivity.
Qed.

Lemma sorted_empty : sorted ∅ = [].
Proof. unfold sorted. rewrite elements_empty. reflexivity. Qed.

(** When no input term is well formed the first pass ends the run. *)
Lemma quine_mccluskey_nothing num_inputs minterms fuel :
  filter (λ t, well_formed num_inputs t = true) minterms = [] →
  quine_mccluskey_fuel (S fuel) num_inputs minterms = Done 1 [].
Proof.
  intros Hnone. unfold quine_mccluskey_fuel.
  destruct (group_minterms_spec num_inputs minterms) as (g & Hg & _). rewrite Hg.
  pose proof (grouped_initial _ _ _ _ Hg) as Hgr.
  assert (∀ i t, ¬ t ∈ bucket g i) as Hempty.
  { intros i t Ht. apply (elem_of_bucket_initial _ _ _ _ _ _ Hg) in Ht as (_ & Hw & Hin).
    assert (t ∈ filter (λ t, well_formed num_inputs t = true) minterms) as Hf
      by (apply list_elem_of_filter; auto).
    rewrite Hnone in Hf. apply elem_of_nil in Hf. contradiction. }
  cbn [qm_loop]. destruct (merge_pass_spec _ _ Hgr) as (ng & Hp & _). rewrite Hp.
  destruct (any_nonempty ng) eqn:Hne; cbn [negb].
  - apply any_nonempty_true in Hne as (i & t & Ht).
    apply (elem_of_bucket_next _ _ _ _ _ _ Hgr Hp) in Ht as [_ Ht].
    destruct (outs_inv _ _ _ Hgr Ht) as (a & b & Ha & _).
    apply Hempty in Ha. contradiction.
  - f_equal. rewrite <- sorted_empty. f_equal. apply set_eq. intros t.
    rewrite elem_of_collect. split; [|set_solver].
    intros [H|(_ & i & Ht)]; [assumption|]. apply Hempty in Ht. contradiction.
Qed.

(** C7: the terms left out of the groups, each with a warning, are exactly
    the input terms whose length is not [num_inputs] or that have a symbol
    other than ['0'], ['1'], ['-']; a run never fails because of them and
    gives the result of the run on the well-formed terms alone; an empty or
    entirely malformed input list gives the empty result. *)
Theorem malformed_terms_skipped (num_inputs : Z) (minterms : list string) :
  (∀ t, well_formed num_inputs t = true ↔
        Z.of_nat (String.length t) = num_inputs ∧
        ∀ i c, String.get i t = Some c →
               c = "0"%char ∨ c = "1"%char ∨ c = "-"%char) ∧
  (∃ groups,
     group_minterms num_inputs minterms =
       Some (groups, filter (λ t, well_formed num_inputs t ≠ true) minterms) ∧
     ∀ k t, t ∈ bucket groups k ↔
            count_ones t = k ∧ well_formed num_inputs t = true ∧ t ∈ minterms) ∧
  (∀ fuel,
     quine_mccluskey_fuel fuel num_inputs minterms ≠ Key_error ∧
     quine_mccluskey_fuel fuel num_inputs minterms =
     quine_mccluskey_fuel fuel num_inputs
       (filter (λ t, well_formed num_inputs t = true) minterms)) ∧
  (∃ passes result,
     quine_mccluskey num_inputs minterms = Done passes result ∧
     quine_mccluskey num_inputs
       (filter (λ t, well_formed num_inputs t = true) minterms) = Done passes result) ∧
  quine_mccluskey num_inputs [] = Done 1 [] ∧
  quine_mccluskey num_inputs
    (filter (λ t, well_formed num_inputs t ≠ true) minterms) = Done 1 [].
Proof.
  assert (∀ fuel, quine_mccluskey_fuel fuel num_inputs minterms =
                  quine_mccluskey_fuel fuel num_inputs
                    (filter (λ t, well_formed num_inputs t = true) minterms)) as Heq.
  { intros fuel. unfold quine_mccluskey_fuel.
    destruct (group_minterms_filter num_inputs minterms) as (g & -> & ->). reflexivity. }
  split; [|split; [|split; [|split; [|split]]]].
  - intros t. rewrite well_formed_iff, all_symbols_ok_positions. reflexivity.
  - destruct (group_minterms_spec num_inputs minterms) as (g & Hg & _).
    exists g. split; [assumption|]. intros k t.
    apply (elem_of_bucket_initial _ _ _ _ _ _ Hg).
  - intros fuel. split; [apply quine_mccluskey_fuel_no_key_error|apply Heq].
  - destruct (quine_mccluskey_done num_inputs minterms) as (p & r & Hrun & _).
    exists p, r. split; [assumption|]. unfold quine_mccluskey in *.
    rewrite <- Heq. assumption.
  - apply quine_mccluskey_nothing. reflexivity.
  - apply quine_mccluskey_nothing, filter_well_formed_of_malformed.
Qed.

(** ** Independence of the input order *)












(** ** Generations as sets of cubes (inputs without don't-care) *)

Lemma is_bits_iff t : is_bits t = true ↔ all_symbols_ok t = true ∧ dashes t = 0.
Proof.
  unfold dashes. induction t as [|x t IH]; simpl; [tauto|].
  unfold symbol_ok. rewrite !andb_true_iff, !orb_true_iff, IH, !Ascii.eqb_eq.
  destruct (Ascii.eqb_spec x "-") as [->|Hx].
  - split; [intros [[[=]|[=]] _]|intros [_ [=]]].
  - tauto.
Qed.

Lemma covers_no_dash t m : dashes t = 0 → covers t m = true → m = t.
Proof.
  unfold dashes. revert m. induction t as [|x t IH]; intros [|y m]; simpl;
    try discriminate; auto.
  destruct (Ascii.eqb_spec x "-") as [->|Hx]; [discriminate|]. simpl.
  intros Hd [Hxy Hc]%andb_prop. apply Ascii.eqb_eq in Hxy. subst y.
  f_equal. apply IH; assumption.
Qed.

(** The two halves of a merged term cover, between them, every minterm the
    merged term covers. *)
Lemma one_diff_covers_split a b c m :
  one_diff a b c → all_symbols_ok a = true →
  count_ones b = S (count_ones a) → dashes a = dashes b →
  is_bits m = true → covers c m = true →
  covers a m = true ∨ covers b m = true.
Proof.
  unfold count_ones, dashes. intros Hd. revert m.
  induction Hd as [x y r Hxy|x a b c _ IH]; intros [|z m]; simpl; try discriminate.
  - unfold symbol_ok.
    destruct (Ascii.eqb_spec y "1") as [->|], (Ascii.eqb_spec x "1") as [->|];
      try lia; try congruence.
    destruct (Ascii.eqb_spec x "-") as [->|]; simpl; [lia|].
    destruct (Ascii.eqb_spec x "0") as [->|]; simpl; [|discriminate].
    intros _ _ _ [Hz _]%andb_prop Hc. apply orb_prop in Hz.
    rewrite !Ascii.eqb_eq in Hz. destruct Hz as [->| ->]; simpl; auto.
  - intros [Hx Ha]%andb_prop Hcnt Hdash [Hz Hm]%andb_prop [Hxz Hc]%andb_prop.
    rewrite Hxz. simpl. apply IH; try assumption.
    + destruct (Ascii.eqb x "1"); lia.
    + destruct (Ascii.eqb x "-"); lia.
Qed.

Section set_first_dash.

Context (t : string) (k : nat).
Hypothesis Hdash : dashes t = S k.

Lemma set_first_dash_one_diff :
  one_diff (set_first_dash "0" t) (set_first_dash "1" t) t.
Proof.
  revert k Hdash. unfold dashes. induction t as [|c r IH]; intros k; simpl; [discriminate|].
  destruct (Ascii.eqb_spec c "-") as [->|Hc].
  - intros _. apply one_diff_here. discriminate.
  - intros Hd. apply one_diff_later, (IH k Hd).
Qed.

Lemma set_first_dash_dashes x : x ≠ "-"%char → dashes (set_first_dash x t) = k.
Proof.
  intros Hx. revert k Hdash. unfold dashes.
  induction t as [|c r IH]; intros k; simpl; [discriminate|].
  destruct (Ascii.eqb_spec c "-") as [->|Hc]; simpl.
  - destruct (Ascii.eqb_spec x "-"); [contradiction|]. lia.
  - destruct (Ascii.eqb_spec c "-"); [contradiction|]. apply IH.
Qed.

Lemma set_first_dash_count_0 : count_ones (set_first_dash "0" t) = count_ones t.
Proof.
  revert k Hdash. unfold dashes, count_ones.
  induction t as [|c r IH]; intros k; simpl; [discriminate|].
  destruct (Ascii.eqb_spec c "-") as [->|Hc]; simpl; [reflexivity|].
  intros Hd. rewrite (IH k Hd). reflexivity.
Qed.

Lemma set_first_dash_count_1 : count_ones (set_first_dash "1" t) = S (count_ones t).
Proof.
  revert k Hdash. unfold dashes, count_ones.
  induction t as [|c r IH]; intros k; simpl; [discriminate|].
  destruct (Ascii.eqb_spec c "-") as [->|Hc]; simpl; [reflexivity|].
  intros Hd. rewrite (IH k Hd). destruct (Ascii.eqb c "1"); reflexivity.
Qed.

End set_first_dash.

Lemma set_first_dash_well_formed num_inputs x t :
  symbol_ok x = true → well_formed num_inputs t = true →
  well_formed num_inputs (set_first_dash x t) = true.
Proof.
  intros Hx [Hl Hs]%well_formed_iff. apply well_formed_iff. split.
  - rewrite <- Hl. f_equal. clear. induction t as [|c r IH]; simpl; [reflexivity|].
    destruct (Ascii.eqb c "-"); simpl; congruence.
  - clear Hl. induction t as [|c r IH]; simpl in *; [reflexivity|].
    apply andb_prop in Hs as [Hc Hr].
    destruct (Ascii.eqb c "-"); simpl; rewrite ?Hx, ?Hc, ?Hr, ?(IH Hr); reflexivity.
Qed.

Lemma set_first_dash_covers x t m :
  covers (set_first_dash x t) m = true → covers t m = true.
Proof.
  revert m. induction t as [|c r IH]; intros [|z m]; simpl; try (intros; assumption).
  - destruct (Ascii.eqb c "-"); simpl; intros H; exact H.
  - destruct (Ascii.eqb_spec c "-") as [->|Hc]; simpl.
    + intros [_ H]%andb_prop. exact H.
    + destruct (Ascii.eqb_spec c "-"); [contradiction|]. simpl.
      intros [Hcz H]%andb_prop. rewrite Hcz, (IH _ H). reflexivity.
Qed.

(** With inputs free of don't-care, generation [k] holds exactly the cubes
    with [k] don't-cares, each under its 1-count. *)
Lemma generation_cubes num_inputs minterms k groups i t :
  (∀ t, t ∈ minterms → dashes t = 0) →
  generation num_inputs minterms k groups →
  t ∈ bucket groups i ↔ count_ones t = i ∧ cube num_inputs minterms k t.
Proof.
  intros Hpure Hgen. revert i t.
  induction Hgen as [g w Hg|k g ng u Hgen IH Hp]; intros i t.
  - rewrite (elem_of_bucket_initial _ _ _ _ _ _ Hg). unfold cube. split.
    + intros (Hc & Hw & Hin). repeat split; try assumption; [apply Hpure, Hin|].
      intros m _ Hcov. rewrite (covers_no_dash _ _ (Hpure _ Hin) Hcov). assumption.
    + intros (Hc & Hw & Hd & Hall). repeat split; try assumption.
      apply Hall; [|apply covers_refl]. apply is_bits_iff. split; [|assumption].
      apply (well_formed_symbols _ _ Hw).
  - pose proof (generation_grouped _ _ _ _ Hgen) as Hgr.
    rewrite (elem_of_bucket_next _ _ _ _ _ _ Hgr Hp). split.
    + intros [Hc Ht]. split; [assumption|].
      destruct (outs_inv _ _ _ Hgr Ht)
        as (a & b & Ha & Hb & Hab & _ & Hwa & _ & _ & Hd & Hwt).
      apply IH in Ha as (_ & _ & Hda & Hma). apply IH in Hb as (_ & _ & Hdb & Hmb).
      split; [assumption|]. split.
      * destruct (one_diff_counts _ _ _ Hd Hab) as [_ ->]. congruence.
      * intros m Hm Hcov.
        destruct (one_diff_covers_split a b t m Hd) as [H|H]; try assumption; auto.
        -- apply (well_formed_symbols _ _ Hwa).
        -- congruence.
    + intros (Hc & Hw & Hd & Hall). split; [assumption|].
      pose proof (set_first_dash_one_diff t k Hd) as Hod.
      apply elem_of_outs. exists (set_first_dash "0" t), (set_first_dash "1" t).
      split; [|apply combine_terms_one_diff;
                 [apply (one_diff_length _ _ _ Hod)|assumption]].
      assert (well_formed num_inputs (set_first_dash "1" t) = true) as Hw1
        by (apply set_first_dash_well_formed; [reflexivity|assumption]).
      apply elem_of_candidates. exists (count_ones t). split; [|split].
      * pose proof (well_formed_count_lt _ _ Hw1) as Hlt.
        rewrite (set_first_dash_count_1 t k Hd) in Hlt. lia.
      * apply IH. split; [apply (set_first_dash_count_0 t k Hd)|].
        split; [apply set_first_dash_well_formed; [reflexivity|assumption]|].
        split; [apply (set_first_dash_dashes t k Hd); discriminate|].
        intros m Hm Hcov. apply Hall; [assumption|].
        apply (set_first_dash_covers _ _ _ Hcov).
      * apply IH. split; [apply (set_first_dash_count_1 t k Hd)|].
        split; [assumption|].
        split; [apply (set_first_dash_dashes t k Hd); discriminate|].
        intros m Hm Hcov. apply Hall; [assumption|].
        apply (set_first_dash_covers _ _ _ Hcov).
Qed.

(** ** Running the reduction on its own output *)

(** How two terms that combine, the second with one more ['1'], can differ:
    ['0'] against ['1'], or ['-'] against ['1']; in the second case the first
    term is the merge of the second with its neighbour that has ['0'] there. *)
Lemma one_diff_cases a b c :
  one_diff a b c → all_symbols_ok a = true → count_ones b = S (count_ones a) →
  dashes a = dashes b ∨
  (dashes a = S (dashes b) ∧
   ∃ b', one_diff b' b a ∧ count_ones b = S (count_ones b') ∧
         dashes b' = dashes b ∧ all_symbols_ok b' = true ∧
         String.length b' = String.length a ∧
         ∀ m, covers b' m = true → covers a m = true).
Proof.
  unfold count_ones, dashes.
  induction 1 as [x y r Hxy|x a b c _ IH]; simpl.
  - unfold symbol_ok.
    destruct (Ascii.eqb_spec y "1") as [->|], (Ascii.eqb_spec x "1") as [->|];
      try lia; try congruence.
    destruct (Ascii.eqb_spec x "-") as [->|Hx]; simpl.
    + intros Hr _. right. split; [reflexivity|].
      exists (String "0" r). simpl. rewrite Hr.
      repeat split; try reflexivity; [apply one_diff_here; discriminate|].
      intros [|z m]; simpl; [discriminate|]. intros [_ H]%andb_prop. exact H.
    + intros _ _. left. reflexivity.
  - intros [Hx Ha]%andb_prop Hcnt.
    destruct IH as [Heq|(Hd & b' & Hod & Hc & Hdb & Hs & Hl & Hcov)];
      [assumption|destruct (Ascii.eqb x "1"); lia| |].
    + left. destruct (Ascii.eqb x "-"); lia.
    + right. split; [destruct (Ascii.eqb x "-"); lia|].
      exists (String x b'). simpl. rewrite Hx, Hs.
      repeat split; try reflexivity.
      * apply one_diff_later, Hod.
      * destruct (Ascii.eqb x "1"); lia.
      * destruct (Ascii.eqb x "-"); lia.
      * lia.
      * intros [|z m]; simpl; [discriminate|].
        intros [Hxz H]%andb_prop. rewrite Hxz, (Hcov _ H). reflexivity.
Qed.

Lemma survivors_do_not_combine num_inputs minterms ja jb a b :
  (∀ t, t ∈ minterms → dashes t = 0) →
  survivor num_inputs minterms ja a → survivor num_inputs minterms jb b →
  count_ones b = S (count_ones a) →
  combine_terms a b = None.
Proof.
  intros Hpure (ga & ia & Hga & Ha & Hna) (gb & ib & Hgb & Hb & Hnb) Hcnt.
  destruct (combine_terms a b) as [c|] eqn:Hc; [exfalso|reflexivity].
  pose proof (proj1 (generation_cubes _ _ _ _ _ _ Hpure Hga) Ha) as (Hia & Hwa & Hda & Hma).
  pose proof (proj1 (generation_cubes _ _ _ _ _ _ Hpure Hgb) Hb) as (Hib & Hwb & Hdb & Hmb).
  pose proof (generation_grouped _ _ _ _ Hgb) as Hgrb.
  apply combine_terms_one_diff in Hc; [|apply (well_formed_same_length _ _ _ Hwa Hwb)].
  destruct (one_diff_cases _ _ _ Hc (well_formed_symbols _ _ Hwa) Hcnt)
    as [Heq|(Hd & b' & Hod & Hcb' & Hdb' & Hsb' & Hlb' & Hcov)].
  - assert (ja = jb) as -> by congruence.
    rewrite (generation_functional _ _ _ _ _ Hga Hgb) in *.
    subst ia ib. rewrite Hcnt in Hb.
    apply combine_terms_one_diff in Hc; [|apply (well_formed_same_length _ _ _ Hwa Hwb)].
    destruct (absorbed_pair _ _ _ _ _ _ Hgrb Ha Hb Hc). contradiction.
  - assert (b' ∈ bucket gb (count_ones b')) as Hb'.
    { apply (generation_cubes _ _ _ _ _ _ Hpure Hgb). split; [reflexivity|].
      split; [|split; [congruence|]].
      - apply well_formed_iff. split; [|assumption].
        rewrite Hlb'. apply (well_formed_length _ _ Hwa).
      - intros m Hm Hcm. apply Hma; auto. }
    subst ib. rewrite Hcb' in Hb.
    apply combine_terms_one_diff in Hod; [|apply (one_diff_length _ _ _ Hod)].
    destruct (absorbed_pair _ _ _ _ _ _ Hgrb Hb' Hb Hod). contradiction.
Qed.

Lemma qm_loop_sorted fuel num_inputs groups prime_implicants passes passes' result :
  qm_loop fuel num_inputs groups prime_implicants passes = Done passes' result →
  ∃ prime_implicants', result = sorted prime_implicants'.
Proof.
  revert groups prime_implicants passes.
  induction fuel as [|fuel IH]; intros g pis p; [discriminate|].
  cbn [qm_loop]. destruct (merge_pass num_inputs g) as [[ng u]|]; [|discriminate].
  destruct (any_nonempty ng); cbn [negb]; [apply IH|].
  intros [= <- <-]. eauto.
Qed.

(** C6 (as amended): when no input term contains a don't-care, running
    [quine_mccluskey] on its own output returns that output again: the second
    run merges nothing, ends after one pass and gives the same sorted list. *)
Theorem rerun_idempotent (num_inputs : Z) (minterms : list string) :
  (∀ t, t ∈ minterms → dashes t = 0) →
  ∃ passes result,
    quine_mccluskey num_inputs minterms = Done passes result ∧
    quine_mccluskey num_inputs result = Done 1 result.
Proof.
  intros Hpure.
  destruct (quine_mccluskey_done num_inputs minterms) as (p & r & Hrun & _).
  exists p, r. split; [assumption|].
  pose proof (quine_mccluskey_result _ _ _ _ _ Hrun) as Hres.
  assert (∃ pis, r = sorted pis) as [pis Hsorted].
  { unfold quine_mccluskey, quine_mccluskey_fuel in Hrun.
    destruct (group_minterms num_inputs minterms) as [[g w]|]; [|discriminate].
    apply (qm_loop_sorted _ _ _ _ _ _ _ Hrun). }
  assert (∀ t, t ∈ r → well_formed num_inputs t = true) as Hwf.
  { intros t (j & g & i & Hgen & Ht & _)%Hres.
    apply (proj2 (generation_grouped _ _ _ _ Hgen) _ _ Ht). }
  unfold quine_mccluskey, quine_mccluskey_fuel.
  destruct (group_minterms_spec num_inputs r) as (g2 & Hg2 & _). rewrite Hg2.
  pose proof (grouped_initial _ _ _ _ Hg2) as Hgr2.
  cbn [qm_loop]. destruct (merge_pass_spec _ _ Hgr2) as (ng & Hp & _). rewrite Hp.
  assert (outs (candidates num_inputs g2) = []) as Houts.
  { apply elem_of_nil_inv. intros c Hc.
    destruct (outs_inv _ _ _ Hgr2 Hc) as (a & b & Ha & Hb & Hab & _ & _ & _ & Hcomb & _).
    apply (elem_of_bucket_initial _ _ _ _ _ _ Hg2) in Ha as (_ & _ & Ha).
    apply (elem_of_bucket_initial _ _ _ _ _ _ Hg2) in Hb as (_ & _ & Hb).
    apply Hres in Ha as [ja Ha]. apply Hres in Hb as [jb Hb].
    rewrite (survivors_do_not_combine _ _ _ _ _ _ Hpure Ha Hb Hab) in Hcomb.
    discriminate. }
  assert (any_nonempty ng = false) as ->.
  { destruct (any_nonempty ng) eqn:Hne; [|reflexivity].
    apply any_nonempty_true in Hne as (k & t & Ht).
    apply (elem_of_bucket_next _ _ _ _ _ _ Hgr2 Hp) in Ht as [_ Ht].
    rewrite Houts in Ht. apply elem_of_nil in Ht. contradiction. }
  cbn [negb]. f_equal. rewrite Hsorted at 1. f_equal. apply set_eq. intros t.
  rewrite elem_of_collect, <- (elem_of_sorted t pis), <- Hsorted. split.
  - intros [H|(_ & k & Ht)]; [set_solver|].
    apply (elem_of_bucket_initial _ _ _ _ _ _ Hg2) in Ht. tauto.
  - intros Ht. right. split.
    + intros (a & b & Hin & [c Hc] & _)%elem_of_absorbed.
      assert (c ∈ outs (candidates num_inputs g2)) as Hout
        by (apply elem_of_outs; eauto).
      rewrite Houts in Hout. apply elem_of_nil in Hout. contradiction.
    + exists (count_ones t). apply (elem_of_bucket_initial _ _ _ _ _ _ Hg2). auto.
Qed.

Lemma rerun_idempotent_witness :
  ∃ passes result,
    quine_mccluskey 3 ["000"; "001"; "101"] = Done passes result ∧
    quine_mccluskey 3 result = Done 1 result.
Proof.
  apply (rerun_idempotent 3 ["000"; "001"; "101"]).
  intros t Ht. repeat (apply elem_of_cons in Ht as [->|Ht]; [reflexivity|]).
  apply elem_of_nil in Ht. contradiction.
Defined.

(** When the input has don't-cares the second run can shrink the set: for
    width 3 and input --0, 100, 110 the first run returns --0 and 1-0 (100 and
    110 merge to 1-0 in the pass in which --0 is left unabsorbed), and the run
    on that output merges 1-0 into --0. *)
Lemma rerun_shrinks :
  quine_mccluskey 3 ["--0"; "100"; "110"] = Done 2 ["--0"; "1-0"] ∧
  quine_mccluskey 3 ["--0"; "1-0"] = Done 2 ["--0"] ∧
  ¬ (∀ t, t ∈ ["--0"] ↔ t ∈ ["--0"; "1-0"]).
Proof.
  split; [vm_compute; reflexivity|]. split; [vm_compute; reflexivity|].
  intros H. assert ("1-0" ∈ ["--0"]) as Hin by (apply H; do 2 constructor).
  apply list_elem_of_singleton in Hin. discriminate.
Qed.

(** ** The tabular format: writing and reading back *)

Example write_example :
  Pla.write_pla_output ["0-"; "11"] 2 1 =
  ".i 2" +:+ String Pla.nl (".o 1" +:+ String Pla.nl ("0- 1" +:+ String Pla.nl
    ("11 1" +:+ String Pla.nl (".e" +:+ String Pla.nl EmptyString)))).
Proof. vm_compute. reflexivity. Qed.

Example parse_example :
  Pla.parse_pla_data (Pla.write_pla_output ["0-"; "11"] 2 1) = Some (["0-"; "11"], 2%Z, 1%Z).
Proof. vm_compute. reflexivity. Qed.

Example parse_skips :
  Pla.parse_pla_data
    (".i 3" +:+ String Pla.nl ("# c" +:+ String Pla.nl ("010 0" +:+ String Pla.nl
       ("  011   1 " +:+ String Pla.nl ("1 1 1" +:+ String Pla.nl ".e"))))) =
  Some (["011"], 3%Z, 0%Z).
Proof. vm_compute. reflexivity. Qed.

Example int_examples :
  Pla.int "-12" = Some (-12)%Z ∧ Pla.int "+7" = Some 7%Z ∧ Pla.int "1_000" = Some 1000%Z ∧
  Pla.int "007" = Some 7%Z ∧ Pla.int "1__0" = None ∧ Pla.int "_1" = None ∧
  Pla.int "1_" = None ∧ Pla.int "-" = None ∧ Pla.int "1a" = None ∧
  Pla.str 0 = "0" ∧ Pla.str (-305) = "-305".
Proof. vm_compute. repeat split; reflexivity. Qed.

Lemma append_cons c s t : String c s +:+ t = String c (s +:+ t).
Proof. reflexivity. Qed.

Lemma no_linebreak_app s t :
  no_linebreak (s +:+ t) = no_linebreak s && no_linebreak t.
Proof.
  induction s as [|c s IH]; [reflexivity|].
  rewrite append_cons. simpl. rewrite IH, andb_assoc. reflexivity.
Qed.

Lemma no_whitespace_no_linebreak s : no_whitespace s = true → no_linebreak s = true.
Proof.
  induction s as [|c s IH]; [reflexivity|]. simpl.
  intros [Hc Hs]%andb_prop. rewrite (IH Hs), andb_true_r.
  apply negb_true_iff in Hc. apply negb_true_iff.
  unfold Pla.is_whitespace, Pla.is_linebreak in *. simpl in *.
  repeat (apply orb_false_elim in Hc as [? Hc]).
  repeat (apply orb_false_intro; [assumption|]). reflexivity.
Qed.

Lemma splitlines_line line rest :
  no_linebreak line = true →
  Pla.splitlines (line +:+ String Pla.nl rest) = line :: Pla.splitlines rest.
Proof.
  induction line as [|c line IH].
  - intros _. change (EmptyString +:+ String Pla.nl rest) with (String Pla.nl rest).
    destruct rest as [|c' r']; reflexivity.
  - simpl no_linebreak. intros [Hc Hl]%andb_prop. apply negb_true_iff in Hc.
    rewrite append_cons. cbn [Pla.splitlines]. rewrite Hc, (IH Hl). reflexivity.
Qed.

Lemma splitlines_unlines lines :
  Forall (λ line, no_linebreak line = true) lines →
  Pla.splitlines (unlines lines) = lines.
Proof.
  induction 1 as [|line lines Hl _ IH]; [reflexivity|].
  simpl unlines. rewrite (splitlines_line _ _ Hl), IH. reflexivity.
Qed.

Lemma split_token_space a rest :
  no_whitespace a = true → a ≠ EmptyString →
  Pla.split (a +:+ String " " rest) = a :: Pla.split rest.
Proof.
  induction a as [|c a IH]; [congruence|]. simpl no_whitespace.
  intros [Hc Ha]%andb_prop _. apply negb_true_iff in Hc.
  rewrite append_cons. cbn [Pla.split]. rewrite Hc.
  destruct a as [|c' a'].
  - reflexivity.
  - rewrite append_cons. rewrite <- append_cons.
    simpl in Ha. apply andb_prop in Ha as [Hc' Ha']. apply negb_true_iff in Hc'.
    rewrite Hc'. rewrite IH; [reflexivity| |discriminate].
    simpl. rewrite Hc', Ha'. reflexivity.
Qed.

Lemma split_token a :
  no_whitespace a = true → a ≠ EmptyString → Pla.split a = [a].
Proof.
  induction a as [|c a IH]; [congruence|]. simpl no_whitespace.
  intros [Hc Ha]%andb_prop _. apply negb_true_iff in Hc.
  cbn [Pla.split]. rewrite Hc. destruct a as [|c' a']; [reflexivity|].
  pose proof Ha as Ha2. simpl in Ha2. apply andb_prop in Ha2 as [Hc' _].
  apply negb_true_iff in Hc'. rewrite Hc', IH; [reflexivity|assumption|discriminate].
Qed.

(** Printing an integer and reading it back. *)

Lemma string_of_uint_shape d :
  d ≠ Decimal.Nil →
  ∃ c r, NilEmpty.string_of_uint d = String c r ∧ is_digit c = true.
Proof. destruct d; [congruence|..]; intros _; eexists _, _; split; reflexivity. Qed.

Lemma uint_of_digits_string d :
  d ≠ Decimal.Nil → Pla.uint_of_digits (NilEmpty.string_of_uint d) = Some d.
Proof.
  induction d as [|d IH|d IH|d IH|d IH|d IH|d IH|d IH|d IH|d IH|d IH];
    [congruence|..]; intros _;
    (destruct (Decimal.uint_eq_dec d Decimal.Nil) as [->|Hd]; [reflexivity|]);
    destruct (string_of_uint_shape d Hd) as (c & r & Hs & Hc);
    specialize (IH Hd); cbn [NilEmpty.string_of_uint Pla.uint_of_digits];
    rewrite Hs in *;
    (destruct (Ascii.eqb_spec c "_") as [->|_]; [discriminate|]);
    rewrite IH; reflexivity.
Qed.

Lemma string_of_uint_no_whitespace d :
  no_whitespace (NilEmpty.string_of_uint d) = true.
Proof. induction d; simpl; try rewrite IHd; reflexivity. Qed.

Lemma str_no_whitespace n : no_whitespace (Pla.str n) = true ∧ Pla.str n ≠ EmptyString.
Proof.
  unfold Pla.str. destruct n as [|p|p]; [split; [reflexivity|discriminate]| |].
  - cbn [Z.to_int NilZero.string_of_int]. unfold NilZero.string_of_uint.
    destruct (string_of_uint_shape _ (DecimalPos.Unsigned.to_uint_nonnil p))
      as (c & r & Hs & _).
    pose proof (string_of_uint_no_whitespace (Pos.to_uint p)) as Hw.
    destruct (Pos.to_uint p); [discriminate|..]; (split; [exact Hw|discriminate]).
  - cbn [Z.to_int NilZero.string_of_int]. unfold NilZero.string_of_uint.
    pose proof (string_of_uint_no_whitespace (Pos.to_uint p)) as Hw.
    destruct (Pos.to_uint p); (split; [simpl in *; try rewrite Hw; reflexivity|discriminate]).
Qed.

Lemma int_str n : Pla.int (Pla.str n) = Some n.
Proof.
  rewrite <- (DecimalZ.of_to n) at 2. unfold Pla.str.
  destruct n as [|p|p]; [reflexivity| |]; cbn [Z.to_int NilZero.string_of_int];
    unfold NilZero.string_of_uint;
    pose proof (DecimalPos.Unsigned.to_uint_nonnil p) as Hnil;
    pose proof (uint_of_digits_string _ Hnil) as Hu;
    destruct (string_of_uint_shape _ Hnil) as (c & r & Hs & Hc).
  - assert (NilEmpty.string_of_uint (Pos.to_uint p) = String c r) as Hs' by exact Hs.
    destruct (Pos.to_uint p) eqn:E; [congruence|..];
      rewrite Hs' in *; unfold Pla.int;
      (destruct (Ascii.eqb_spec c "-") as [->|_]; [discriminate|]);
      (destruct (Ascii.eqb_spec c "+") as [->|_]; [discriminate|]);
      rewrite Hu; reflexivity.
  - destruct (Pos.to_uint p) eqn:E; [congruence|..];
      cbn [String.append]; unfold Pla.int; rewrite Ascii.eqb_refl, Hu; reflexivity.
Qed.

Lemma unlines_app l1 l2 : unlines (l1 ++ l2) = unlines l1 +:+ unlines l2.
Proof.
  induction l1 as [|l l1 IH]; [reflexivity|].
  simpl. rewrite IH, append_assoc. reflexivity.
Qed.

Lemma write_unlines terms num_inputs num_outputs :
  Pla.write_pla_output terms num_inputs num_outputs =
  unlines ((".i " +:+ Pla.str num_inputs) :: (".o " +:+ Pla.str num_outputs) ::
           map (λ t, t +:+ " 1") terms ++ [".e"]).
Proof.
  unfold Pla.write_pla_output. cbv zeta.
  assert (∀ file,
            foldl (λ file term, file +:+ (term +:+ " 1" +:+ String Pla.nl EmptyString))
                  file terms =
            file +:+ unlines (map (λ t, t +:+ " 1") terms)) as Hfold.
  { induction terms as [|t ts IH]; intros file.
    - simpl. rewrite append_empty_r. reflexivity.
    - cbn [foldl map unlines foldr]. rewrite IH, !append_assoc. reflexivity. }
  rewrite Hfold. cbn [unlines foldr]. fold (unlines (map (λ t, t +:+ " 1") terms ++ [".e"])).
  rewrite unlines_app, !append_assoc. reflexivity.
Qed.

Lemma symbols_no_whitespace t : all_symbols_ok t = true → no_whitespace t = true.
Proof.
  induction t as [|c t IH]; [reflexivity|]. simpl. unfold symbol_ok.
  intros [Hc Ht]%andb_prop. rewrite (IH Ht), andb_true_r.
  apply orb_prop in Hc as [Hc|Hc]; [apply orb_prop in Hc as [Hc|Hc]|];
    apply Ascii.eqb_eq in Hc; subst c; reflexivity.
Qed.

Lemma parse_line_inputs n minterms num_inputs num_outputs :
  Pla.parse_line (".i " +:+ Pla.str n) (minterms, num_inputs, num_outputs) =
  Some (minterms, n, num_outputs).
Proof.
  destruct (str_no_whitespace n) as [Hw Hne].
  unfold Pla.parse_line.
  change (Pla.startswith (".i " +:+ Pla.str n) ".") with true.
  change (Pla.startswith (".i " +:+ Pla.str n) ".i") with true.
  change (".i " +:+ Pla.str n) with (".i" +:+ String " " (Pla.str n)).
  rewrite split_token_space by (reflexivity || discriminate).
  rewrite (split_token _ Hw Hne). cbn [lookup list_lookup]. rewrite int_str. reflexivity.
Qed.

Lemma parse_line_outputs n minterms num_inputs num_outputs :
  Pla.parse_line (".o " +:+ Pla.str n) (minterms, num_inputs, num_outputs) =
  Some (minterms, num_inputs, n).
Proof.
  destruct (str_no_whitespace n) as [Hw Hne].
  unfold Pla.parse_line.
  change (Pla.startswith (".o " +:+ Pla.str n) ".") with true.
  change (Pla.startswith (".o " +:+ Pla.str n) ".i") with false.
  change (Pla.startswith (".o " +:+ Pla.str n) ".o") with true.
  change (".o " +:+ Pla.str n) with (".o" +:+ String " " (Pla.str n)).
  rewrite split_token_space by (reflexivity || discriminate).
  rewrite (split_token _ Hw Hne). cbn [lookup list_lookup]. rewrite int_str. reflexivity.
Qed.

Lemma parse_line_term t minterms num_inputs num_outputs :
  all_symbols_ok t = true → t ≠ EmptyString →
  Pla.parse_line (t +:+ " 1") (minterms, num_inputs, num_outputs) =
  Some (minterms ++ [t], num_inputs, num_outputs).
Proof.
  intros Hs Hne. pose proof (symbols_no_whitespace _ Hs) as Hw.
  unfold Pla.parse_line.
  assert (Pla.startswith (t +:+ " 1") "." = false) as ->.
  { destruct t as [|c t]; [congruence|]. simpl in Hs. unfold symbol_ok in Hs.
    apply andb_prop in Hs as [Hc _].
    apply orb_prop in Hc as [Hc|Hc]; [apply orb_prop in Hc as [Hc|Hc]|];
      apply Ascii.eqb_eq in Hc; subst c; reflexivity. }
  change (t +:+ " 1") with (t +:+ String " " "1").
  rewrite (split_token_space _ _ Hw Hne). reflexivity.
Qed.

Lemma parse_lines_terms terms minterms num_inputs num_outputs :
  (∀ t, t ∈ terms → all_symbols_ok t = true ∧ t ≠ EmptyString) →
  for_each (map (λ t, t +:+ " 1") terms ++ [".e"]) Pla.parse_line
           (minterms, num_inputs, num_outputs) =
  Some (minterms ++ terms, num_inputs, num_outputs).
Proof.
  revert minterms. induction terms as [|t ts IH]; intros minterms Hall.
  - simpl. rewrite app_nil_r. reflexivity.
  - cbn [map app for_each].
    destruct (Hall t) as [Hs Hne]; [constructor|].
    rewrite (parse_line_term _ _ _ _ Hs Hne), IH.
    + rewrite <- app_assoc. reflexivity.
    + intros t' Ht'. apply Hall. constructor. assumption.
Qed.

(** C8 (as amended): for every list of well-formed terms none of which is
    empty (so for every width of at least 1), the text that
    [write_pla_output] writes is parsed by [parse_pla_data] into the same
    terms, in the same order, with the same input and output counts. *)
Theorem pla_round_trip (terms : list string) (num_inputs num_outputs : Z) :
  (∀ t, t ∈ terms → well_formed num_inputs t = true ∧ t ≠ EmptyString) →
  Pla.parse_pla_data (Pla.write_pla_output terms num_inputs num_outputs) =
  Some (terms, num_inputs, num_outputs).
Proof.
  intros Hall.
  assert (∀ t, t ∈ terms → all_symbols_ok t = true ∧ t ≠ EmptyString) as Hall'.
  { intros t Ht. destruct (Hall t Ht) as [Hw Hne]. split; [|assumption].
    apply (well_formed_symbols _ _ Hw). }
  unfold Pla.parse_pla_data. rewrite write_unlines, splitlines_unlines.
  - cbn [for_each]. rewrite parse_line_inputs, parse_line_outputs.
    apply (parse_lines_terms terms [] _ _ Hall').
  - destruct (str_no_whitespace num_inputs) as [Hwi _].
    destruct (str_no_whitespace num_outputs) as [Hwo _].
    repeat constructor.
    + rewrite no_linebreak_app, (no_whitespace_no_linebreak _ Hwi). reflexivity.
    + rewrite no_linebreak_app, (no_whitespace_no_linebreak _ Hwo). reflexivity.
    + apply Forall_app. split; [|repeat constructor].
      apply Forall_fmap, Forall_forall. intros t Ht. simpl.
      rewrite no_linebreak_app. destruct (Hall' t Ht) as [Hs _].
      rewrite (no_whitespace_no_linebreak _ (symbols_no_whitespace _ Hs)). reflexivity.
Qed.

Lemma pla_round_trip_witness :
  Pla.parse_pla_data (Pla.write_pla_output ["-01"; "00-"] 3 1) =
  Some (["-01"; "00-"], 3%Z, 1%Z).
Proof.
  apply (pla_round_trip ["-01"; "00-"] 3 1).
  intros t Ht. repeat (apply elem_of_cons in Ht as [->|Ht]; [split; [reflexivity|discriminate]|]).
  apply elem_of_nil in Ht. contradiction.
Defined.

(** The empty term, which is well formed for width 0, does not come back:
    its line is [" 1"], one token only, and the parser drops it. *)
Lemma pla_round_trip_empty_term :
  well_formed 0 EmptyString = true ∧
  quine_mccluskey 0 [EmptyString] = Done 1 [EmptyString] ∧
  Pla.parse_pla_data (Pla.write_pla_output [EmptyString] 0 1) = Some ([], 0%Z, 1%Z) ∧
  ¬ (∀ t : string, t ∈ [EmptyString] ↔ t ∈ []).
Proof.
  split; [reflexivity|]. split; [vm_compute; reflexivity|].
  split; [vm_compute; reflexivity|].
  intros H. assert (EmptyString ∈ ([] : list string)) as Hin by (apply H; constructor).
  apply elem_of_nil in Hin. contradiction.
Qed.

(** * Further properties of the code *)

(** ** [combine_terms] *)

Lemma combine_loop_sym a b :
  combine_loop a b 0 EmptyString = combine_loop b a 0 EmptyString.
Proof.
  revert b. induction a as [|x a IH]; intros [|y b]; try reflexivity.
  rewrite !combine_loop_cons, (IH b), (Ascii.eqb_sym y x).
  destruct (Ascii.eqb_spec x y) as [->|]; reflexivity.
Qed.

Lemma combine_terms_swap a b : combine_terms a b = combine_terms b a.
Proof. unfold combine_terms. rewrite combine_loop_sym. reflexivity. Qed.

(** X1: [combine_terms] does not depend on the order of its two arguments,
    whatever their lengths. *)
Theorem combine_terms_symmetric (a b : string) :
  combine_terms a b = combine_terms b a.
Proof. apply combine_terms_swap. Qed.

Lemma combine_loop_length a b :
  String.length (combine_loop a b 0 EmptyString).2 =
  Nat.min (String.length a) (String.length b) ∧
  (combine_loop a b 0 EmptyString).1 ≤ dashes (combine_loop a b 0 EmptyString).2.
Proof.
  unfold dashes. revert b. induction a as [|x a IH]; intros [|y b];
    try (split; [reflexivity|simpl; lia]).
  rewrite combine_loop_cons. destruct (IH b) as [IH1 IH2].
  destruct (Ascii.eqb x y); simpl; (split; [lia|]).
  - destruct (Ascii.eqb x "-"); lia.
  - lia.
Qed.

(** X2: a term returned by [combine_terms] is as long as the shorter
    argument, is not empty (so the test [if combined:] never drops a merge)
    and has at least one don't-care; a term never combines with itself. *)
Theorem combine_terms_result (a b c : string) :
  combine_terms a b = Some c →
  String.length c = Nat.min (String.length a) (String.length b) ∧
  truthy c = true ∧ 1 ≤ dashes c ∧ a ≠ b.
Proof.
  intros H. split; [|split; [apply (combine_terms_truthy _ _ _ H)|split]].
  - unfold combine_terms in H. destruct (combine_loop_length a b) as [Hl _].
    destruct (combine_loop a b 0 EmptyString) as [d m]. simpl in *.
    destruct (Nat.eqb d 1); [|discriminate]. congruence.
  - unfold combine_terms in H. destruct (combine_loop_length a b) as [_ Hd].
    destruct (combine_loop a b 0 EmptyString) as [d m]. simpl in *.
    destruct (Nat.eqb_spec d 1); [|discriminate]. injection H as <-. lia.
  - intros ->. unfold combine_terms in H. rewrite combine_loop_same in H.
    discriminate.
Qed.

Lemma combine_terms_result_witness :
  String.length "0-1" = Nat.min (String.length "001") (String.length "011") ∧
  truthy "0-1" = true ∧ 1 ≤ dashes "0-1" ∧ "001" ≠ "011".
Proof. apply (combine_terms_result "001" "011" "0-1"). reflexivity. Defined.

(** ** One pass *)

(** X3: a pass stores under key [i] of [next_groups] exactly the terms that a
    term of [groups[i]] and a term of [groups[i + 1]] combine to: a merge of
    1-counts [i] and [i + 1] has [i] ones, so re-bucketing by [count_ones]
    never moves it elsewhere, and the list under the last key,
    [num_inputs], stays empty. *)
Theorem next_groups_by_key (num_inputs : Z) (minterms : list string) (k : nat)
    (groups next_groups : gmap nat (list string)) (used : gset string) :
  generation num_inputs minterms k groups →
  merge_pass num_inputs groups = Some (next_groups, used) →
  (∀ i c, c ∈ bucket next_groups i ↔
          ∃ a b, a ∈ bucket groups i ∧ b ∈ bucket groups (S i) ∧
                 combine_terms a b = Some c) ∧
  bucket next_groups (Z.to_nat num_inputs) = [].
Proof.
  intros Hgen Hp. pose proof (generation_grouped _ _ _ _ Hgen) as Hgr.
  assert (∀ i c, c ∈ bucket next_groups i ↔
                 ∃ a b, a ∈ bucket groups i ∧ b ∈ bucket groups (S i) ∧
                        combine_terms a b = Some c) as Hkey.
  { intros i c. rewrite (elem_of_bucket_next _ _ _ _ _ _ Hgr Hp). split.
    - intros [Hc Hout].
      destruct (outs_inv _ _ _ Hgr Hout) as (a & b & Ha & Hb & Hab & _ & _ & _ & Hcomb & Hd & _).
      destruct (one_diff_counts _ _ _ Hd Hab) as [Hca _].
      exists a, b. rewrite Hab, <- Hca, Hc in Hb. rewrite <- Hca, Hc in Ha. auto.
    - intros (a & b & Ha & Hb & Hcomb).
      destruct (proj2 Hgr _ _ Ha) as [Hwa Hca], (proj2 Hgr _ _ Hb) as [Hwb Hcb].
      assert (one_diff a b c) as Hd.
      { apply combine_terms_one_diff; [|assumption].
        apply (well_formed_same_length _ _ _ Hwa Hwb). }
      destruct (one_diff_counts _ _ _ Hd) as [Hcc _]; [congruence|].
      split; [congruence|]. apply elem_of_outs. exists a, b. split; [|assumption].
      apply elem_of_candidates. exists i. split; [|auto].
      pose proof (well_formed_count_lt _ _ Hwb). lia. }
  split; [exact Hkey|]. apply elem_of_nil_inv. intros c Hc.
  apply Hkey in Hc as (a & b & _ & Hb & _).
  destruct (proj2 Hgr _ _ Hb) as [Hwb Hcb].
  pose proof (well_formed_count_lt _ _ Hwb). lia.
Qed.

Lemma next_groups_by_key_witness :
  bucket (default ∅ (fst <$> merge_pass 2
            (default ∅ (fst <$> group_minterms 2 ["00"; "01"; "11"])))) (Z.to_nat 2) = [].
Proof.
  apply (next_groups_by_key 2 ["00"; "01"; "11"] 0
           (default ∅ (fst <$> group_minterms 2 ["00"; "01"; "11"]))
           (default ∅ (fst <$> merge_pass 2
              (default ∅ (fst <$> group_minterms 2 ["00"; "01"; "11"]))))
           {["00"; "01"; "11"]}).
  - apply (generation_first _ _ _ []). vm_compute. reflexivity.
  - vm_compute. reflexivity.
Defined.

(** X4: in every generation the terms have at least as many don't-cares as
    passes were made before, and exactly that many when no input term has a
    don't-care. *)
Theorem generation_dont_cares (num_inputs : Z) (minterms : list string) (k : nat)
    (groups : gmap nat (list string)) (i : nat) (t : string) :
  generation num_inputs minterms k groups → t ∈ bucket groups i →
  k ≤ dashes t ∧ ((∀ m, m ∈ minterms → dashes m = 0) → dashes t = k).
Proof.
  intros Hgen Ht. split; [apply (generation_dashes _ _ _ _ _ _ Hgen Ht)|].
  intros Hpure. apply (generation_cubes _ _ _ _ _ _ Hpure Hgen) in Ht.
  destruct Ht as (_ & _ & Hd & _). exact Hd.
Qed.

Lemma generation_dont_cares_witness :
  1 ≤ dashes "0-" ∧ ((∀ m, m ∈ ["00"; "01"] → dashes m = 0) → dashes "0-" = 1).
Proof.
  apply (generation_dont_cares 2 ["00"; "01"] 1
           (default ∅ (fst <$> merge_pass 2
              (default ∅ (fst <$> group_minterms 2 ["00"; "01"])))) 0 "0-").
  - apply (generation_next _ _ 0
             (default ∅ (fst <$> group_minterms 2 ["00"; "01"])) _ {["00"; "01"]}).
    + apply (generation_first _ _ _ []). vm_compute. reflexivity.
    + vm_compute. reflexivity.
  - vm_compute. constructor.
Defined.

(** ** The result *)

Lemma str_le_total : Total str_le.
Proof. intros s1 s2. apply String.leb_total. Qed.

Lemma quine_mccluskey_sorted_nodup fuel num_inputs minterms passes result :
  quine_mccluskey_fuel fuel num_inputs minterms = Done passes result →
  Sorted str_le result ∧ NoDup result.
Proof.
  unfold quine_mccluskey_fuel.
  destruct (group_minterms num_inputs minterms) as [[g w]|]; [|discriminate].
  intros [pis ->]%qm_loop_sorted. unfold sorted. split.
  - apply (@Sorted_merge_sort _ str_le _ str_le_total).
  - rewrite (merge_sort_Permutation str_le). apply NoDup_elements.
Qed.

(** X5: the list [quine_mccluskey] returns is in Python's string order and
    has no term twice. *)
Theorem result_sorted_nodup (fuel : nat) (num_inputs : Z) (minterms : list string)
    (passes : nat) (result : list string) :
  quine_mccluskey_fuel fuel num_inputs minterms = Done passes result →
  Sorted str_le result ∧ NoDup result.
Proof. apply quine_mccluskey_sorted_nodup. Qed.

Lemma result_sorted_nodup_witness :
  Sorted str_le ["-01"; "00-"] ∧ NoDup ["-01"; "00-"].
Proof.
  apply (result_sorted_nodup 4 3 ["000"; "001"; "101"; "001"] 2).
  vm_compute. reflexivity.
Defined.

Lemma generation_from_input num_inputs minterms k groups i t :
  generation num_inputs minterms k groups → t ∈ bucket groups i →
  ∃ m, m ∈ minterms ∧ well_formed num_inputs m = true ∧ covers t m = true.
Proof.
  intros Hgen. revert i t. induction Hgen as [g w Hg|k g ng u Hgen IH Hp]; intros i t Ht.
  - apply (elem_of_bucket_initial _ _ _ _ _ _ Hg) in Ht as (_ & Hw & Hin).
    exists t. split; [assumption|]. split; [assumption|apply covers_refl].
  - pose proof (generation_grouped _ _ _ _ Hgen) as Hgr.
    apply (elem_of_bucket_next _ _ _ _ _ _ Hgr Hp) in Ht as [_ Ht].
    destruct (outs_inv _ _ _ Hgr Ht) as (a & b & Ha & _ & _ & _ & _ & _ & _ & Hd & _).
    destruct (IH _ _ Ha) as (m & Hin & Hw & Hcov).
    exists m. split; [assumption|]. split; [assumption|].
    apply (covers_trans _ a); [apply (one_diff_covers _ _ _ Hd)|assumption].
Qed.

(** X6: no term of the output comes from nowhere: every output term covers
    some well-formed term of the input (it is that term, or was merged from
    it). *)
Theorem result_from_input (fuel : nat) (num_inputs : Z) (minterms : list string)
    (passes : nat) (result : list string) (t : string) :
  quine_mccluskey_fuel fuel num_inputs minterms = Done passes result →
  t ∈ result →
  ∃ m, m ∈ minterms ∧ well_formed num_inputs m = true ∧ covers t m = true.
Proof.
  intros Hrun Ht.
  apply (quine_mccluskey_result _ _ _ _ _ Hrun) in Ht as (j & g & i & Hgen & Ht & _).
  apply (generation_from_input _ _ _ _ _ _ Hgen Ht).
Qed.

Lemma result_from_input_witness :
  ∃ m, m ∈ ["000"; "001"; "101"] ∧ well_formed 3 m = true ∧ covers "-01" m = true.
Proof.
  apply (result_from_input 4 3 ["000"; "001"; "101"] 2 ["-01"; "00-"] "-01").
  - vm_compute. reflexivity.
  - constructor.
Defined.

(** ** Inputs without don't-care: the output is the set of prime implicants *)

(** When an implicant [c] covers a different term [t], some position has
    ['-'] in [c] and ['0'] or ['1'] in [t]; flipping [t] there gives a term
    [t'] that [c] still covers and that combines with [t]. *)
Lemma covers_neighbour c t :
  covers c t = true → c ≠ t → all_symbols_ok t = true →
  ∃ t' c', one_diff t t' c' ∧ all_symbols_ok t' = true ∧
           dashes t' = dashes t ∧
           (count_ones t' = S (count_ones t) ∨ count_ones t = S (count_ones t')) ∧
           ∀ m, covers t' m = true → covers c m = true.
Proof.
  unfold dashes, count_ones. revert t.
  induction c as [|x c IH]; intros [|y t]; simpl; try discriminate; [congruence|].
  intros [Hxy Hc]%andb_prop Hne [Hy Ht]%andb_prop.
  destruct (Ascii.eqb_spec x y) as [->|Hxy'].
  - destruct (IH t Hc) as (t' & c' & Hod & Hs & Hd & Hcnt & Hcov);
      [congruence|assumption|].
    exists (String y t'), (String y c'). simpl. rewrite Hy, Hs.
    repeat split; try reflexivity.
    + apply one_diff_later, Hod.
    + destruct (Ascii.eqb y "-"); lia.
    + destruct (Ascii.eqb y "1"); lia.
    + intros [|z m]; [discriminate|]. intros [Hyz Hm]%andb_prop.
      rewrite Hyz, (Hcov _ Hm). reflexivity.
  - rewrite orb_false_r in Hxy. apply Ascii.eqb_eq in Hxy. subst x.
    unfold symbol_ok in Hy.
    destruct (Ascii.eqb_spec y "0") as [->|Hy0].
    + exists (String "1" t), (String "-" t). simpl. rewrite Ht.
      repeat split; try reflexivity; [apply one_diff_here; discriminate|auto|].
      intros [|z m]; [discriminate|]. intros [_ Hm]%andb_prop.
      apply (covers_trans _ t); assumption.
    + destruct (Ascii.eqb_spec y "1") as [->|Hy1].
      * exists (String "0" t), (String "-" t). simpl. rewrite Ht.
        repeat split; try reflexivity; [apply one_diff_here; discriminate|auto|].
        intros [|z m]; [discriminate|]. intros [_ Hm]%andb_prop.
        apply (covers_trans _ t); assumption.
      * simpl in Hy. apply Ascii.eqb_eq in Hy. congruence.
Qed.

Lemma covers_length c t : covers c t = true → String.length c = String.length t.
Proof. intros H. apply covers_positions in H. tauto. Qed.

Lemma cube_implicant num_inputs minterms t :
  implicant num_inputs minterms t ↔ cube num_inputs minterms (dashes t) t.
Proof. unfold implicant, cube. tauto. Qed.

Section prime_implicants.

Context (num_inputs : Z) (minterms : list string).
Hypothesis Hpure : ∀ m, m ∈ minterms → dashes m = 0.

Lemma survivor_prime j t :
  survivor num_inputs minterms j t →
  implicant num_inputs minterms t ∧
  ∀ c, implicant num_inputs minterms c → covers c t = true → c = t.
Proof.
  intros (g & i & Hgen & Ht & Hnab).
  pose proof (generation_grouped _ _ _ _ Hgen) as Hgr.
  pose proof (proj1 (generation_cubes _ _ _ _ _ _ Hpure Hgen) Ht) as (Hi & Hw & Hd & Hm).
  split; [split; assumption|]. intros c [Hwc Hmc] Hcov.
  destruct (decide (c = t)) as [|Hne]; [assumption|exfalso].
  destruct (covers_neighbour c t Hcov Hne (well_formed_symbols _ _ Hw))
    as (t' & c' & Hod & Hs' & Hd' & Hcnt & Hcov').
  assert (t' ∈ bucket g (count_ones t')) as Ht'.
  { apply (generation_cubes _ _ _ _ _ _ Hpure Hgen). split; [reflexivity|].
    split; [|split; [congruence|]].
    - apply well_formed_iff. split; [|assumption].
      destruct (one_diff_length _ _ _ Hod) as [<- _]. apply (well_formed_length _ _ Hw).
    - intros m Hbits Hcm. apply Hmc; auto. }
  subst i. apply Hnab.
  apply combine_terms_one_diff in Hod; [|apply (one_diff_length _ _ _ Hod)].
  destruct Hcnt as [Hcnt|Hcnt].
  - rewrite Hcnt in Ht'. apply (absorbed_pair _ _ _ _ _ _ Hgr Ht Ht' Hod).
  - rewrite Hcnt in Ht. rewrite combine_terms_swap in Hod.
    apply (absorbed_pair _ _ _ _ _ _ Hgr Ht' Ht Hod).
Qed.

Lemma prime_survivor t :
  implicant num_inputs minterms t →
  (∀ c, implicant num_inputs minterms c → covers c t = true → c = t) →
  survivor num_inputs minterms (dashes t) t.
Proof.
  intros [Hw Hm] Hmax.
  destruct (generation_exists num_inputs minterms (dashes t)) as [g Hgen].
  pose proof (generation_grouped _ _ _ _ Hgen) as Hgr.
  exists g, (count_ones t). split; [assumption|]. split.
  - apply (generation_cubes _ _ _ _ _ _ Hpure Hgen). unfold cube. auto.
  - intros (a & b & Hin & [c Hc] & Hor)%elem_of_absorbed.
    destruct (merge_pass_spec _ _ Hgr) as (ng & Hp & _).
    assert (c ∈ bucket ng (count_ones c)) as Hcn.
    { apply (elem_of_bucket_next _ _ _ _ _ _ Hgr Hp). split; [reflexivity|].
      apply elem_of_outs. eauto. }
    apply (generation_cubes _ _ _ _ _ _ Hpure (generation_next _ _ _ _ _ _ Hgen Hp))
      in Hcn as (_ & Hwc & Hdc & Hmc).
    apply elem_of_candidates in Hin as (i & _ & Ha & Hb).
    assert (one_diff a b c) as Hod.
    { apply combine_terms_one_diff; [|assumption].
      apply (well_formed_same_length num_inputs);
        [apply (proj2 Hgr _ _ Ha)|apply (proj2 Hgr _ _ Hb)]. }
    destruct (one_diff_covers _ _ _ Hod) as [Hca Hcb].
    assert (c = t) as Heq.
    { apply Hmax; [split; assumption|]. destruct Hor as [->| ->]; assumption. }
    subst c. lia.
Qed.

End prime_implicants.

(** X7: when no input term has a don't-care, the output stands for the same
    Boolean function as the input: a 0/1 string of length [num_inputs] is
    covered by some output term exactly when it is one of the input terms. *)
Theorem same_function (num_inputs : Z) (minterms : list string) :
  (∀ t, t ∈ minterms → dashes t = 0) →
  ∃ passes result,
    quine_mccluskey num_inputs minterms = Done passes result ∧
    ∀ m, is_bits m = true → Z.of_nat (String.length m) = num_inputs →
         (m ∈ minterms ↔ ∃ t, t ∈ result ∧ covers t m = true).
Proof.
  intros Hpure.
  destruct (quine_mccluskey_done num_inputs minterms) as (passes & result & Hrun & _).
  exists passes, result. split; [assumption|].
  intros m Hbits Hlen. split.
  - intros Hin. destruct (group_minterms_spec num_inputs minterms) as (g & Hg & _).
    assert (m ∈ bucket g (count_ones m)) as Hm.
    { apply (elem_of_bucket_initial _ _ _ _ _ _ Hg). split; [reflexivity|].
      split; [|assumption]. apply well_formed_iff. split; [assumption|].
      apply is_bits_symbols, Hbits. }
    destruct (covered_by_survivor num_inputs minterms (Z.to_nat num_inputs) 0 g _ m
                (generation_first _ _ _ _ Hg) Hm) as (j & t & Hs & Hcov); [lia|].
    exists t. split; [|assumption].
    apply (quine_mccluskey_result _ _ _ _ _ Hrun). eauto.
  - intros (t & Ht & Hcov).
    apply (quine_mccluskey_result _ _ _ _ _ Hrun) in Ht as [j Hs].
    destruct (survivor_prime _ _ Hpure _ _ Hs) as [[_ Hm] _]. auto.
Qed.

Lemma same_function_witness :
  ∃ passes result,
    quine_mccluskey 3 ["000"; "001"; "101"] = Done passes result ∧
    ∀ m, is_bits m = true → Z.of_nat (String.length m) = 3%Z →
         (m ∈ ["000"; "001"; "101"] ↔ ∃ t, t ∈ result ∧ covers t m = true).
Proof.
  apply (same_function 3 ["000"; "001"; "101"]).
  intros t Ht. repeat (apply elem_of_cons in Ht as [->|Ht]; [reflexivity|]).
  apply elem_of_nil in Ht. contradiction.
Defined.

(** X8: when no input term has a don't-care, the output is exactly the set of
    prime implicants of the input: the well-formed terms that cover input
    minterms only and are covered by no other such term. *)
Theorem result_prime_implicants (num_inputs : Z) (minterms : list string) :
  (∀ m, m ∈ minterms → dashes m = 0) →
  ∃ passes result,
    quine_mccluskey num_inputs minterms = Done passes result ∧
    ∀ t, t ∈ result ↔
         implicant num_inputs minterms t ∧
         ∀ c, implicant num_inputs minterms c → covers c t = true → c = t.
Proof.
  intros Hpure.
  destruct (quine_mccluskey_done num_inputs minterms) as (passes & result & Hrun & _).
  exists passes, result. split; [assumption|].
  intros t. rewrite (quine_mccluskey_result _ _ _ _ _ Hrun t). split.
  - intros [j Hs]. apply (survivor_prime _ _ Hpure _ _ Hs).
  - intros [Hi Hmax]. exists (dashes t). apply (prime_survivor _ _ Hpure _ Hi Hmax).
Qed.

Lemma result_prime_implicants_witness :
  ∃ passes result,
    quine_mccluskey 3 ["000"; "001"; "101"] = Done passes result ∧
    ∀ t, t ∈ result ↔
         implicant 3 ["000"; "001"; "101"] t ∧
         ∀ c, implicant 3 ["000"; "001"; "101"] c → covers c t = true → c = t.
Proof.
  apply (result_prime_implicants 3 ["000"; "001"; "101"]).
  intros t Ht. repeat (apply elem_of_cons in Ht as [->|Ht]; [reflexivity|]).
  apply elem_of_nil in Ht. contradiction.
Defined.

Lemma all_dashes_facts n :
  String.length (all_dashes n) = n ∧ all_symbols_ok (all_dashes n) = true ∧
  ∀ t, String.length t = n → covers (all_dashes n) t = true.
Proof.
  induction n as [|n (IH1 & IH2 & IH3)]; simpl.
  - repeat split. intros [|x t]; [reflexivity|discriminate].
  - repeat split; [congruence|assumption|].
    intros [|x t]; [discriminate|]. intros [= Hl]. apply (IH3 _ Hl).
Qed.

Lemma covers_all_dashes c n : covers c (all_dashes n) = true → c = all_dashes n.
Proof.
  revert c. induction n as [|n IH]; intros [|x c]; simpl; try discriminate; auto.
  intros [Hx Hc]%andb_prop. rewrite (IH _ Hc). f_equal.
  apply orb_prop in Hx as [Hx|Hx]; apply Ascii.eqb_eq in Hx; congruence.
Qed.

(** A list without repetition whose only possible member is [x] and that
    has [x] is [[x]]. *)
Lemma nodup_singleton {A} (l : list A) (x : A) :
  NoDup l → (∀ y, y ∈ l ↔ y = x) → l = [x].
Proof.
  intros Hnd Hx. destruct l as [|y l].
  - assert (x ∈ ([] : list A)) as H by (apply Hx; reflexivity).
    apply elem_of_nil in H. contradiction.
  - assert (y = x) as -> by (apply Hx; constructor).
    f_equal. apply elem_of_nil_inv. intros z Hz.
    assert (z = x) as -> by (apply Hx; constructor; assumption).
    apply NoDup_cons in Hnd as [Hn _]. contradiction.
Qed.

(** X9: when the input has no don't-care and contains every 0/1 string of
    length [num_inputs], the run returns the single term of [num_inputs]
    don't-cares. *)
Theorem tautology (num_inputs : nat) (minterms : list string) :
  (∀ m, m ∈ minterms → dashes m = 0) →
  (∀ m, is_bits m = true → String.length m = num_inputs → m ∈ minterms) →
  ∃ passes,
    quine_mccluskey (Z.of_nat num_inputs) minterms =
    Done passes [all_dashes num_inputs].
Proof.
  intros Hpure Hall.
  destruct (quine_mccluskey_done (Z.of_nat num_inputs) minterms)
    as (passes & result & Hrun & _).
  exists passes. rewrite Hrun. f_equal.
  destruct (all_dashes_facts num_inputs) as (Hl & Hs & Hcov).
  assert (implicant (Z.of_nat num_inputs) minterms (all_dashes num_inputs)) as Himp.
  { split; [apply well_formed_iff; split; [congruence|assumption]|].
    intros m Hbits Hc. apply Hall; [assumption|].
    apply covers_length in Hc. congruence. }
  apply nodup_singleton; [apply (quine_mccluskey_sorted_nodup _ _ _ _ _ Hrun)|].
  intros t. rewrite (quine_mccluskey_result _ _ _ _ _ Hrun t). split.
  - intros [j Hsurv]. destruct (survivor_prime _ _ Hpure _ _ Hsurv) as [[Hw _] Hmax].
    symmetry. apply Hmax; [assumption|]. apply Hcov.
    apply well_formed_length in Hw. lia.
  - intros ->. exists (dashes (all_dashes num_inputs)).
    apply (prime_survivor _ _ Hpure _ Himp). intros c _ Hc.
    apply (covers_all_dashes _ _ Hc).
Qed.

Lemma tautology_witness :
  ∃ passes, quine_mccluskey (Z.of_nat 2) ["00"; "01"; "10"; "11"] = Done passes [all_dashes 2].
Proof.
  apply (tautology 2 ["00"; "01"; "10"; "11"]).
  - intros t Ht. repeat (apply elem_of_cons in Ht as [->|Ht]; [reflexivity|]).
    apply elem_of_nil in Ht. contradiction.
  - intros [|x [|y [|z m]]]; try discriminate. simpl.
    intros [Hx [Hy _]%andb_prop]%andb_prop _.
    apply orb_prop in Hx as [Hx|Hx]; apply orb_prop in Hy as [Hy|Hy];
      apply Ascii.eqb_eq in Hx, Hy; subst x y; set_solver.
Defined.

(** ** Repeated input terms *)

Lemma candidates_same_members num_inputs g1 g2 a b :
  same_members g1 g2 →
  (a, b) ∈ candidates num_inputs g1 ↔ (a, b) ∈ candidates num_inputs g2.
Proof.
  intros Hs. rewrite !elem_of_candidates.
  split; intros (i & Hi & Ha & Hb); exists i; (split; [assumption|]);
    split; apply Hs; assumption.
Qed.

Lemma merge_pass_same_members num_inputs g1 g2 ng1 ng2 u1 u2 :
  grouped num_inputs g1 → grouped num_inputs g2 → same_members g1 g2 →
  merge_pass num_inputs g1 = Some (ng1, u1) →
  merge_pass num_inputs g2 = Some (ng2, u2) →
  same_members ng1 ng2 ∧ u1 = u2.
Proof.
  intros Hgr1 Hgr2 Hs Hp1 Hp2. split.
  - intros k t. rewrite (elem_of_bucket_next _ _ _ _ _ _ Hgr1 Hp1),
      (elem_of_bucket_next _ _ _ _ _ _ Hgr2 Hp2), !elem_of_outs.
    split; intros (Hk & a & b & Hin & Hc); (split; [assumption|]); exists a, b;
      (split; [|assumption]); apply (candidates_same_members _ _ _ _ _ Hs); assumption.
  - destruct (bucket_next _ _ _ _ 0 Hgr1 Hp1) as [-> _].
    destruct (bucket_next _ _ _ _ 0 Hgr2 Hp2) as [-> _].
    apply set_eq. intros t. rewrite !elem_of_absorbed.
    split; intros (a & b & Hin & Hrest); exists a, b; (split; [|assumption]);
      apply (candidates_same_members _ _ _ _ _ Hs); assumption.
Qed.

Lemma qm_loop_same_members fuel num_inputs g1 g2 prime_implicants passes :
  grouped num_inputs g1 → grouped num_inputs g2 → same_members g1 g2 →
  qm_loop fuel num_inputs g1 prime_implicants passes =
  qm_loop fuel num_inputs g2 prime_implicants passes.
Proof.
  revert g1 g2 prime_implicants passes.
  induction fuel as [|fuel IH]; intros g1 g2 pis p Hgr1 Hgr2 Hs; [reflexivity|].
  cbn [qm_loop].
  destruct (merge_pass_spec _ _ Hgr1) as (ng1 & Hp1 & _).
  destruct (merge_pass_spec _ _ Hgr2) as (ng2 & Hp2 & _).
  destruct (merge_pass_same_members _ _ _ _ _ _ _ Hgr1 Hgr2 Hs Hp1 Hp2) as [Hns Hu].
  rewrite Hp1, Hp2, <- Hu.
  assert (collect g1 (absorbed (candidates num_inputs g1)) pis =
          collect g2 (absorbed (candidates num_inputs g1)) pis) as ->.
  { apply set_eq. intros t. rewrite !elem_of_collect.
    split; (intros [H|(Hn & k & Ht)]; [auto|]); right; (split; [assumption|]);
      exists k; apply Hs; assumption. }
  assert (any_nonempty ng1 = any_nonempty ng2) as ->.
  { apply eq_true_iff_eq. rewrite !any_nonempty_true.
    split; intros (k & t & Ht); exists k, t; apply Hns; assumption. }
  destruct (any_nonempty ng2); cbn [negb]; [|reflexivity].
  apply IH; [apply (grouped_next _ _ _ _ Hgr1 Hp1)|apply (grouped_next _ _ _ _ Hgr2 Hp2)|assumption].
Qed.

(** X10: the result and the number of passes depend only on which terms the
    input list contains: repeating input terms (or reordering them) changes
    nothing, although every copy is grouped and compared. *)
Theorem duplicates_irrelevant (num_inputs : Z) (list1 list2 : list string) :
  (∀ t, t ∈ list1 ↔ t ∈ list2) →
  quine_mccluskey num_inputs list1 = quine_mccluskey num_inputs list2.
Proof.
  intros Hsame. unfold quine_mccluskey, quine_mccluskey_fuel.
  destruct (group_minterms_spec num_inputs list1) as (g1 & Hg1 & _).
  destruct (group_minterms_spec num_inputs list2) as (g2 & Hg2 & _).
  rewrite Hg1, Hg2. apply qm_loop_same_members.
  - apply (grouped_initial _ _ _ _ Hg1).
  - apply (grouped_initial _ _ _ _ Hg2).
  - intros k t. rewrite (elem_of_bucket_initial _ _ _ _ _ _ Hg1),
      (elem_of_bucket_initial _ _ _ _ _ _ Hg2), (Hsame t). reflexivity.
Qed.

Lemma duplicates_irrelevant_witness :
  quine_mccluskey 2 ["00"; "01"; "00"] = quine_mccluskey 2 ["01"; "00"].
Proof.
  apply (duplicates_irrelevant 2 ["00"; "01"; "00"] ["01"; "00"]).
  intros t. rewrite !elem_of_cons. rewrite elem_of_nil. tauto.
Defined.

(** ** Widths below one *)

(** X11: for a width of zero or less the run makes one pass and merges
    nothing; the result is empty, except for width 0 with the empty string
    among the input terms, where it is the empty string alone. *)
Theorem narrow_width (num_inputs : Z) (minterms : list string) :
  (num_inputs ≤ 0)%Z →
  ∃ result,
    quine_mccluskey num_inputs minterms = Done 1 result ∧
    ∀ t, t ∈ result ↔ num_inputs = 0%Z ∧ t = EmptyString ∧ EmptyString ∈ minterms.
Proof.
  intros Hle. destruct (quine_mccluskey_done num_inputs minterms) as (p & r & Hrun & Hp).
  assert (p = 1) as ->.
  { unfold quine_mccluskey, quine_mccluskey_fuel in Hrun.
    destruct (group_minterms num_inputs minterms) as [[g w]|]; [|discriminate].
    destruct (qm_loop_fuel _ _ _ _ _ _ _ Hrun) as [Hlt _]. lia. }
  exists r. split; [assumption|]. intros t.
  rewrite (quine_mccluskey_result _ _ _ _ _ Hrun t). split.
  - intros (j & g & i & Hgen & Ht & _).
    destruct (generation_from_input _ _ _ _ _ _ Hgen Ht) as (m & Hin & Hw & Hcov).
    apply well_formed_length in Hw. apply covers_length in Hcov.
    assert (String.length m = 0) as Hm by lia.
    destruct m; [|discriminate]. destruct t; [|discriminate].
    repeat split; [simpl in Hw; lia|assumption].
  - intros (-> & -> & Hin).
    destruct (group_minterms_spec 0 minterms) as (g & Hg & _).
    exists 0, g, 0. split; [apply (generation_first _ _ _ _ Hg)|]. split.
    + apply (elem_of_bucket_initial _ _ _ _ _ _ Hg). auto.
    + intros (a & b & Hc & _)%elem_of_absorbed.
      apply elem_of_candidates in Hc as (i & Hi & _). simpl in Hi. lia.
Qed.

Lemma narrow_width_witness :
  ∃ result,
    quine_mccluskey (-2) ["0"; "11"] = Done 1 result ∧
    ∀ t, t ∈ result ↔ (-2)%Z = 0%Z ∧ t = EmptyString ∧ EmptyString ∈ ["0"; "11"].
Proof. apply (narrow_width (-2) ["0"; "11"]). lia. Defined.

(** ** The parser *)

Lemma for_each_fails {A S} (l : list A) (body : A → S → option S) x s :
  x ∈ l → (∀ s, body x s = None) → for_each l body s = None.
Proof.
  intros Hin Hx. revert s. induction l as [|y l IH]; intros s.
  - apply elem_of_nil in Hin. contradiction.
  - simpl. apply elem_of_cons in Hin as [<-|Hin]; [rewrite Hx; reflexivity|].
    destruct (body y s); [apply (IH Hin)|reflexivity].
Qed.

Lemma prefix_cons a s1 b s2 :
  String.prefix (String a s1) (String b s2) =
  if Ascii.eqb a b then String.prefix s1 s2 else false.
Proof.
  cbn [String.prefix]. destruct (Ascii.ascii_dec a b) as [->|Hne].
  - rewrite Ascii.eqb_refl. reflexivity.
  - destruct (Ascii.eqb_spec a b); [contradiction|reflexivity].
Qed.

Lemma startswith_dot line p :
  Pla.startswith line (String "." p) = true → Pla.startswith line "." = true.
Proof.
  unfold Pla.startswith. destruct line as [|c line]; [discriminate|].
  rewrite !prefix_cons. destruct (Ascii.eqb "." c); [|discriminate].
  intros _. destruct line; reflexivity.
Qed.

Lemma startswith_i_o line :
  Pla.startswith line ".o" = true → Pla.startswith line ".i" = false.
Proof.
  unfold Pla.startswith. destruct line as [|c [|c' line]]; try discriminate.
  - rewrite prefix_cons. destruct (Ascii.eqb "." c); discriminate.
  - rewrite !prefix_cons. destruct (Ascii.eqb "." c); [|discriminate].
    destruct (Ascii.eqb_spec "o" c') as [<-|]; [|discriminate]. reflexivity.
Qed.

Lemma parse_line_bad line st : bad_declaration line → Pla.parse_line line st = None.
Proof.
  intros [Hstart Hbad]. destruct st as [[ms n] m]. unfold Pla.parse_line.
  destruct Hstart as [Hi|Ho].
  - rewrite (startswith_dot _ _ Hi), Hi.
    destruct (Pla.split line !! 1) as [tok|]; [|reflexivity].
    rewrite (Hbad tok eq_refl). reflexivity.
  - rewrite (startswith_dot _ _ Ho), (startswith_i_o _ Ho), Ho.
    destruct (Pla.split line !! 1) as [tok|]; [|reflexivity].
    rewrite (Hbad tok eq_refl). reflexivity.
Qed.

(** X12: one line that starts with [.i] or [.o] and has no second token, or a
    second token that is not an integer literal, makes [parse_pla_data] fail
    for the whole text (the exception of [line.split()[1]] or of [int] is not
    caught), wherever the line stands.  The label lines [.ilb] and [.ob] of
    PLA files are such lines. *)
Theorem bad_declaration_aborts (pla_data line : string) :
  line ∈ Pla.splitlines pla_data → bad_declaration line →
  Pla.parse_pla_data pla_data = None.
Proof.
  intros Hin Hbad. unfold Pla.parse_pla_data.
  apply (for_each_fails _ _ line); [assumption|].
  intros st. apply (parse_line_bad _ _ Hbad).
Qed.

Lemma bad_declaration_aborts_witness :
  Pla.parse_pla_data
    (".i 2" +:+ String Pla.nl (".ilb a b" +:+ String Pla.nl "00 1")) = None.
Proof.
  apply (bad_declaration_aborts _ ".ilb a b").
  - vm_compute. do 2 constructor.
  - split; [left; reflexivity|]. intros tok [= <-]. reflexivity.
Defined.

Lemma parse_line_step line ms0 n0 m0 ms1 n1 m1 :
  Pla.parse_line line (ms0, n0, m0) = Some (ms1, n1, m1) →
  ms1 = ms0 ++ option_list (row_term line) ∧
  n1 = default n0 (declared ".i" line) ∧
  m1 = default m0 (declared ".o" line).
Proof.
  unfold Pla.parse_line, row_term, declared.
  destruct (Pla.startswith line ".") eqn:Hdot.
  - destruct (Pla.startswith line ".i") eqn:Hi.
    + assert (Pla.startswith line ".o" = false) as ->.
      { destruct (Pla.startswith line ".o") eqn:Ho; [|reflexivity].
        rewrite (startswith_i_o _ Ho) in Hi. discriminate. }
      destruct (Pla.split line !! 1) as [tok|]; [|discriminate].
      destruct (Pla.int tok) as [v|]; [|discriminate].
      intros [= <- <- <-]. simpl. rewrite app_nil_r. auto.
    + destruct (Pla.startswith line ".o") eqn:Ho.
      * destruct (Pla.split line !! 1) as [tok|]; [|discriminate].
        destruct (Pla.int tok) as [v|]; [|discriminate].
        intros [= <- <- <-]. simpl. rewrite app_nil_r. auto.
      * intros [= <- <- <-]. simpl. rewrite app_nil_r. auto.
  - assert (Pla.startswith line ".i" = false) as ->.
    { destruct (Pla.startswith line ".i") eqn:Hi; [|reflexivity].
      rewrite (startswith_dot _ _ Hi) in Hdot. discriminate. }
    assert (Pla.startswith line ".o" = false) as ->.
    { destruct (Pla.startswith line ".o") eqn:Ho; [|reflexivity].
      rewrite (startswith_dot _ _ Ho) in Hdot. discriminate. }
    destruct (Pla.split line) as [|term [|output [|? ?]]];
      try (intros [= <- <- <-]; simpl; rewrite app_nil_r; auto).
    destruct (String.eqb output "1"); intros [= <- <- <-]; simpl;
      rewrite ?app_nil_r; auto.
Qed.

Lemma omap_cons_list {A B} (f : A → option B) x l :
  omap f (x :: l) = option_list (f x) ++ omap f l.
Proof. simpl. destruct (f x); reflexivity. Qed.

Lemma last_option_list {A} (o : option A) (l : list A) d :
  default d (last (option_list o ++ l)) = default (default d o) (last l).
Proof.
  destruct o as [x|]; simpl; [|reflexivity].
  destruct l as [|y l]; [reflexivity|]. rewrite last_cons.
  destruct (last (y :: l)) eqn:E; [reflexivity|].
  apply last_None in E. discriminate.
Qed.

Lemma parse_lines_scan lines minterms num_inputs num_outputs ms n m :
  for_each lines Pla.parse_line (minterms, num_inputs, num_outputs) = Some (ms, n, m) →
  ms = minterms ++ omap row_term lines ∧
  n = default num_inputs (last (omap (declared ".i") lines)) ∧
  m = default num_outputs (last (omap (declared ".o") lines)).
Proof.
  revert minterms num_inputs num_outputs.
  induction lines as [|line lines IH]; intros ms0 n0 m0.
  - simpl. intros [= <- <- <-]. rewrite app_nil_r. auto.
  - cbn [for_each].
    destruct (Pla.parse_line line (ms0, n0, m0)) as [[[ms1 n1] m1]|] eqn:Hstep;
      [|discriminate].
    apply parse_line_step in Hstep as (-> & -> & ->).
    intros H. destruct (IH _ _ _ H) as (-> & -> & ->).
    rewrite !omap_cons_list, !last_option_list, <- app_assoc. auto.
Qed.

(** X13: when [parse_pla_data] returns, its three results are three
    independent scans of the lines: the minterms are, in line order, the first
    token of every line that does not start with a dot and has exactly two
    tokens, the second being ["1"] (rows standing before the declarations
    count as well); the input count is the number declared by the last [.i]
    line, 0 if there is none, and likewise the output count for [.o]. *)
Theorem parse_scans (pla_data : string) (minterms : list string)
    (num_inputs num_outputs : Z) :
  Pla.parse_pla_data pla_data = Some (minterms, num_inputs, num_outputs) →
  minterms = omap row_term (Pla.splitlines pla_data) ∧
  num_inputs = default 0%Z (last (omap (declared ".i") (Pla.splitlines pla_data))) ∧
  num_outputs = default 0%Z (last (omap (declared ".o") (Pla.splitlines pla_data))).
Proof. intros H. apply (parse_lines_scan _ [] _ _ _ _ _ H). Qed.

Lemma parse_scans_witness :
  ["11"; "01"] =
    omap row_term (Pla.splitlines
      ("11 1" +:+ String Pla.nl (".i 3" +:+ String Pla.nl ("10 0" +:+ String Pla.nl
         (".i 2" +:+ String Pla.nl "01 1"))))) ∧
  2%Z = default 0%Z (last (omap (declared ".i") (Pla.splitlines
      ("11 1" +:+ String Pla.nl (".i 3" +:+ String Pla.nl ("10 0" +:+ String Pla.nl
         (".i 2" +:+ String Pla.nl "01 1"))))))) ∧
  0%Z = default 0%Z (last (omap (declared ".o") (Pla.splitlines
      ("11 1" +:+ String Pla.nl (".i 3" +:+ String Pla.nl ("10 0" +:+ String Pla.nl
         (".i 2" +:+ String Pla.nl "01 1"))))))).
Proof. apply parse_scans. vm_compute. reflexivity. Defined.

(** ** Runs of a single pass *)

Lemma first_pass_outs num_inputs minterms groups warnings :
  group_minterms num_inputs minterms = Some (groups, warnings) →
  outs (candidates num_inputs groups) = [] ↔
  ∀ a b, a ∈ minterms → b ∈ minterms →
         well_formed num_inputs a = true → well_formed num_inputs b = true →
         count_ones b = S (count_ones a) → combine_terms a b = None.
Proof.
  intros Hg. pose proof (grouped_initial _ _ _ _ Hg) as Hgr. split.
  - intros Houts a b Ha Hb Hwa Hwb Hcnt.
    destruct (combine_terms a b) as [c|] eqn:Hc; [exfalso|reflexivity].
    assert (c ∈ outs (candidates num_inputs groups)) as Hin.
    { apply elem_of_outs. exists a, b. split; [|assumption].
      apply elem_of_candidates. exists (count_ones a).
      pose proof (well_formed_count_lt _ _ Hwb) as Hlt.
      split; [lia|]. split; apply (elem_of_bucket_initial _ _ _ _ _ _ Hg); auto. }
    rewrite Houts in Hin. apply elem_of_nil in Hin. contradiction.
  - intros Hnone. apply elem_of_nil_inv. intros c Hc.
    destruct (outs_inv _ _ _ Hgr Hc) as (a & b & Ha & Hb & Hab & _ & Hwa & Hwb & Hcomb & _).
    apply (elem_of_bucket_initial _ _ _ _ _ _ Hg) in Ha as (_ & _ & Ha).
    apply (elem_of_bucket_initial _ _ _ _ _ _ Hg) in Hb as (_ & _ & Hb).
    rewrite (Hnone a b Ha Hb Hwa Hwb Hab) in Hcomb. discriminate.
Qed.

Lemma first_pass_last fuel num_inputs minterms groups warnings passes result :
  group_minterms num_inputs minterms = Some (groups, warnings) →
  quine_mccluskey_fuel fuel num_inputs minterms = Done passes result →
  (passes = 1 ↔ outs (candidates num_inputs groups) = []) ∧
  (passes = 1 →
   ∀ t, t ∈ result ↔ t ∈ minterms ∧ well_formed num_inputs t = true).
Proof.
  intros Hg. unfold quine_mccluskey_fuel. rewrite Hg.
  pose proof (grouped_initial _ _ _ _ Hg) as Hgr.
  destruct fuel as [|fuel]; [discriminate|]. cbn [qm_loop].
  destruct (merge_pass_spec _ _ Hgr) as (ng & Hp & _). rewrite Hp.
  destruct (any_nonempty ng) eqn:Hne; cbn [negb].
  - intros Hrun. apply qm_loop_fuel in Hrun as [Hlt _].
    apply any_nonempty_true in Hne as (k & t & Ht).
    apply (elem_of_bucket_next _ _ _ _ _ _ Hgr Hp) in Ht as [_ Ht].
    split; [|lia]. split; [lia|]. intros Houts.
    rewrite Houts in Ht. apply elem_of_nil in Ht. contradiction.
  - intros [= <- <-].
    assert (outs (candidates num_inputs groups) = []) as Houts.
    { apply elem_of_nil_inv. intros c Hc.
      assert (any_nonempty ng = true) as Hne'; [|congruence].
      apply any_nonempty_true. exists (count_ones c), c.
      apply (elem_of_bucket_next _ _ _ _ _ _ Hgr Hp). auto. }
    split; [tauto|]. intros _ t.
    rewrite elem_of_sorted, elem_of_collect. split.
    + intros [H|(_ & k & Ht)]; [set_solver|].
      apply (elem_of_bucket_initial _ _ _ _ _ _ Hg) in Ht. tauto.
    + intros [Hin Hw]. right. split.
      * intros (a & b & Hab & [c Hc] & _)%elem_of_absorbed.
        assert (c ∈ outs (candidates num_inputs groups)) as Hout
          by (apply elem_of_outs; eauto).
        rewrite Houts in Hout. apply elem_of_nil in Hout. contradiction.
      * exists (count_ones t). apply (elem_of_bucket_initial _ _ _ _ _ _ Hg). auto.
Qed.

(** X14: every run returns, and it returns after its first pass exactly when
    no two well-formed input terms whose numbers of ['1'] differ by one
    combine; the result then consists of the well-formed input terms
    themselves. *)
Theorem single_pass (num_inputs : Z) (minterms : list string) :
  ∃ passes result,
    quine_mccluskey num_inputs minterms = Done passes result ∧
    (passes = 1 ↔
     ∀ a b, a ∈ minterms → b ∈ minterms →
            well_formed num_inputs a = true → well_formed num_inputs b = true →
            count_ones b = S (count_ones a) → combine_terms a b = None) ∧
    (passes = 1 →
     ∀ t, t ∈ result ↔ t ∈ minterms ∧ well_formed num_inputs t = true).
Proof.
  destruct (quine_mccluskey_done num_inputs minterms) as (passes & result & Hrun & _).
  exists passes, result. split; [assumption|].
  destruct (group_minterms_spec num_inputs minterms) as (g & Hg & _).
  destruct (first_pass_last _ _ _ _ _ _ _ Hg Hrun) as [Hiff Hres].
  rewrite <- (first_pass_outs _ _ _ _ Hg). auto.
Qed.

(** ** Writing and reading back, in general *)

Lemma parse_line_row t minterms num_inputs num_outputs :
  no_whitespace t = true → Pla.startswith t "." = false →
  Pla.parse_line (t +:+ " 1") (minterms, num_inputs, num_outputs) =
  Some (minterms ++ filter (λ t, t ≠ EmptyString) [t], num_inputs, num_outputs).
Proof.
  intros Hw Hdot. destruct t as [|c t].
  - cbn. rewrite app_nil_r. reflexivity.
  - unfold Pla.parse_line.
    assert (Pla.startswith (String c t +:+ " 1") "." = false) as ->.
    { revert Hdot. unfold Pla.startswith. rewrite append_cons, !prefix_cons.
      destruct (Ascii.eqb "." c); [|reflexivity]. destruct t; discriminate. }
    change (String c t +:+ " 1") with (String c t +:+ String " " "1").
    rewrite (split_token_space _ _ Hw) by discriminate. reflexivity.
Qed.

Lemma parse_lines_rows terms minterms num_inputs num_outputs :
  (∀ t, t ∈ terms → no_whitespace t = true ∧ Pla.startswith t "." = false) →
  for_each (map (λ t, t +:+ " 1") terms ++ [".e"]) Pla.parse_line
           (minterms, num_inputs, num_outputs) =
  Some (minterms ++ filter (λ t, t ≠ EmptyString) terms, num_inputs, num_outputs).
Proof.
  revert minterms. induction terms as [|t ts IH]; intros minterms Hall.
  - simpl. rewrite app_nil_r. reflexivity.
  - cbn [map app for_each].
    destruct (Hall t) as [Hw Hdot]; [constructor|].
    rewrite (parse_line_row _ _ _ _ Hw Hdot), IH.
    + rewrite <- app_assoc. do 3 f_equal.
      change (t :: ts) with ([t] ++ ts). rewrite filter_app. reflexivity.
    + intros t' Ht'. apply Hall. constructor. assumption.
Qed.

Lemma write_parse terms num_inputs num_outputs :
  (∀ t, t ∈ terms → no_whitespace t = true ∧ Pla.startswith t "." = false) →
  Pla.parse_pla_data (Pla.write_pla_output terms num_inputs num_outputs) =
  Some (filter (λ t, t ≠ EmptyString) terms, num_inputs, num_outputs).
Proof.
  intros Hall.
  unfold Pla.parse_pla_data. rewrite write_unlines, splitlines_unlines.
  - cbn [for_each]. rewrite parse_line_inputs, parse_line_outputs.
    apply (parse_lines_rows terms [] _ _ Hall).
  - destruct (str_no_whitespace num_inputs) as [Hwi _].
    destruct (str_no_whitespace num_outputs) as [Hwo _].
    repeat constructor.
    + rewrite no_linebreak_app, (no_whitespace_no_linebreak _ Hwi). reflexivity.
    + rewrite no_linebreak_app, (no_whitespace_no_linebreak _ Hwo). reflexivity.
    + apply Forall_app. split; [|repeat constructor].
      apply Forall_fmap, Forall_forall. intros t Ht. simpl.
      rewrite no_linebreak_app. destruct (Hall t Ht) as [Hw _].
      rewrite (no_whitespace_no_linebreak _ Hw). reflexivity.
Qed.

(** X15: for any terms without white space that do not start with a dot,
    [parse_pla_data] reads from the text of [write_pla_output] the same two
    counts, whatever integers they are, and the terms that are not empty, in
    the same order: the row of an empty term has one token and is dropped. *)
Theorem write_parse_drops_empty (terms : list string) (num_inputs num_outputs : Z) :
  (∀ t, t ∈ terms → no_whitespace t = true ∧ Pla.startswith t "." = false) →
  Pla.parse_pla_data (Pla.write_pla_output terms num_inputs num_outputs) =
  Some (filter (λ t, t ≠ EmptyString) terms, num_inputs, num_outputs).
Proof. apply write_parse. Qed.

Lemma write_parse_drops_empty_witness :
  Pla.parse_pla_data (Pla.write_pla_output ["ab"; EmptyString; "2"] (-4) 0) =
  Some (filter (λ t, t ≠ EmptyString) ["ab"; EmptyString; "2"], (-4)%Z, 0%Z).
Proof.
  apply (write_parse_drops_empty ["ab"; EmptyString; "2"] (-4) 0).
  intros t Ht.
  repeat (apply elem_of_cons in Ht as [->|Ht]; [split; reflexivity|]).
  apply elem_of_nil in Ht. contradiction.
Defined.

(** ** The program *)

Example replace_examples :
  Main.replace "a.pla" ".pla" "_minimized.pla" = "a_minimized.pla" ∧
  Main.replace "x.pla/y.pla" ".pla" "_minimized.pla" = "x_minimized.pla/y_minimized.pla" ∧
  Main.replace "aaa" "aa" "b" = "ba" ∧
  Main.replace "abc" EmptyString "-" = "-a-b-c-" ∧
  Main.replace EmptyString EmptyString "-" = "-" ∧
  Main.replace "in.txt" ".pla" "_minimized.pla" = "in.txt".
Proof. vm_compute. repeat split; reflexivity. Qed.

Example main_example :
  Main.main ["qm.py"; "f.pla"]
    {[ "f.pla" := Main.Text (".i 2" +:+ String Main.cr (String Pla.nl
                  (".o 1" +:+ String Pla.nl ("00 1" +:+ String Main.cr "01 1")))) ]}
    (λ _, true) =
  Main.Return
    (<[ "f_minimized.pla" :=
          Main.Text (".i 2" +:+ String Pla.nl (".o 1" +:+ String Pla.nl
            ("0- 1" +:+ String Pla.nl (".e" +:+ String Pla.nl EmptyString)))) ]>
       {[ "f.pla" := Main.Text (".i 2" +:+ String Main.cr (String Pla.nl
                  (".o 1" +:+ String Pla.nl ("00 1" +:+ String Main.cr "01 1")))) ]}).
Proof. vm_compute. reflexivity. Qed.

Example main_cannot_write :
  Main.main ["qm.py"; "t.pla/in.pla"]
    {[ "t.pla/in.pla" := Main.Text (".i 1" +:+ String Pla.nl "0 1") ]}
    (λ path, negb (String.eqb path "t_minimized.pla/in_minimized.pla")) =
  Main.Raise Main.OSError.
Proof. vm_compute. reflexivity. Qed.

(** Reading in text mode does not change the lines. *)

Lemma splitlines_break c r :
  Pla.is_linebreak c = true → Ascii.eqb c Main.cr = false →
  Pla.splitlines (String c r) = EmptyString :: Pla.splitlines r.
Proof.
  intros Hc Hne. cbn [Pla.splitlines]. rewrite Hc.
  destruct r as [|c' r']; [reflexivity|].
  change (Ascii.eqb c "013") with (Ascii.eqb c Main.cr). rewrite Hne. reflexivity.
Qed.

Lemma splitlines_universal_newlines s :
  Pla.splitlines (Main.universal_newlines s) = Pla.splitlines s.
Proof.
  assert (∀ n s, String.length s < n →
            Pla.splitlines (Main.universal_newlines s) = Pla.splitlines s) as H.
  { clear s. induction n as [|n IH]; intros s Hlen; [lia|].
    destruct s as [|c r]; [reflexivity|]. simpl in Hlen.
    cbn [Main.universal_newlines].
    destruct (Ascii.eqb c Main.cr) eqn:Hc.
    - apply Ascii.eqb_eq in Hc. subst c. destruct r as [|c' r']; [reflexivity|].
      simpl in Hlen. destruct (Ascii.eqb c' Pla.nl) eqn:Hc'.
      + rewrite splitlines_break by reflexivity. rewrite IH by lia.
        apply Ascii.eqb_eq in Hc'. subst c'. reflexivity.
      + rewrite splitlines_break by reflexivity. rewrite IH by (simpl; lia).
        cbn [Pla.splitlines]. change (Pla.is_linebreak Main.cr) with true.
        cbv iota. change (Ascii.eqb Main.cr "013") with true. rewrite Hc'. reflexivity.
    - cbn [Pla.splitlines]. rewrite IH by lia.
      destruct (Pla.is_linebreak c); [|reflexivity].
      change (Ascii.eqb c "013") with (Ascii.eqb c Main.cr). rewrite Hc.
      destruct r as [|c' r']; [reflexivity|].
      cbn [Main.universal_newlines andb].
      destruct (Ascii.eqb c' Main.cr); [|reflexivity].
      destruct r' as [|c'' r'']; [reflexivity|].
      destruct (Ascii.eqb c'' Pla.nl); reflexivity. }
  apply (H (S (String.length s))). lia.
Qed.

Lemma parse_universal_newlines content :
  Pla.parse_pla_data (Main.universal_newlines content) = Pla.parse_pla_data content.
Proof. unfold Pla.parse_pla_data. rewrite splitlines_universal_newlines. reflexivity. Qed.

(** The lines on which the parser fails. *)

Lemma for_each_none {A S} (l : list A) (body : A → S → option S) s :
  for_each l body s = None → ∃ x s', x ∈ l ∧ body x s' = None.
Proof.
  revert s. induction l as [|x l IH]; intros s; [discriminate|]. simpl.
  destruct (body x s) as [s'|] eqn:Hx.
  - intros (y & s'' & Hin & Hy)%IH. exists y, s''. split; [constructor|]; assumption.
  - intros _. exists x, s. split; [constructor|assumption].
Qed.

Lemma parse_line_none line st : Pla.parse_line line st = None → bad_declaration line.
Proof.
  destruct st as [[ms n] m]. unfold Pla.parse_line, bad_declaration.
  destruct (Pla.startswith line ".").
  - destruct (Pla.startswith line ".i") eqn:Hi.
    + intros H. split; [left; reflexivity|]. intros tok Htok. rewrite Htok in H.
      destruct (Pla.int tok); [discriminate|reflexivity].
    + destruct (Pla.startswith line ".o") eqn:Ho; [|discriminate].
      intros H. split; [right; reflexivity|]. intros tok Htok. rewrite Htok in H.
      destruct (Pla.int tok); [discriminate|reflexivity].
  - destruct (Pla.split line) as [|term [|output [|? ?]]]; try discriminate.
    destruct (String.eqb output "1"); discriminate.
Qed.

Lemma parse_fails pla_data :
  Pla.parse_pla_data pla_data = None ↔
  ∃ line, line ∈ Pla.splitlines pla_data ∧ bad_declaration line.
Proof.
  unfold Pla.parse_pla_data. split.
  - intros (line & st & Hin & Hline)%for_each_none.
    exists line. split; [assumption|]. apply (parse_line_none _ _ Hline).
  - intros (line & Hin & Hbad). apply (for_each_fails _ _ line); [assumption|].
    intros st. apply (parse_line_bad _ _ Hbad).
Qed.

(** What the parser hands over is made of tokens. *)

Lemma split_tokens s t :
  t ∈ Pla.split s → t ≠ EmptyString ∧ no_whitespace t = true.
Proof.
  revert t. induction s as [|c r IH]; intros t; cbn [Pla.split].
  - intros H. apply elem_of_nil in H. contradiction.
  - destruct (Pla.is_whitespace c) eqn:Hc; [apply IH|].
    assert (String c EmptyString ≠ EmptyString ∧
            no_whitespace (String c EmptyString) = true) as Hone.
    { split; [discriminate|]. simpl. rewrite Hc. reflexivity. }
    destruct r as [|c' r'].
    + intros ->%list_elem_of_singleton. exact Hone.
    + destruct (Pla.is_whitespace c') eqn:Hc'.
      * intros [->|Ht]%elem_of_cons; [exact Hone|apply (IH _ Ht)].
      * destruct (Pla.split (String c' r')) as [|tok toks].
        -- intros ->%list_elem_of_singleton. exact Hone.
        -- intros [->|Ht]%elem_of_cons.
           ++ destruct (IH tok) as [_ Hw]; [constructor|].
              split; [discriminate|]. simpl. rewrite Hc, Hw. reflexivity.
           ++ apply IH. constructor. assumption.
Qed.

Lemma parsed_terms pla_data minterms num_inputs num_outputs t :
  Pla.parse_pla_data pla_data = Some (minterms, num_inputs, num_outputs) →
  t ∈ minterms → t ≠ EmptyString ∧ no_whitespace t = true.
Proof.
  unfold Pla.parse_pla_data. intros (-> & _ & _)%parse_lines_scan.
  intros (line & _ & Hrow)%list_elem_of_omap. revert Hrow. unfold row_term.
  destruct (Pla.startswith line "."); [discriminate|].
  destruct (Pla.split line) as [|term [|output [|? ?]]] eqn:Hsplit; try discriminate.
  destruct (String.eqb output "1"); [|discriminate]. intros [= ->].
  apply (split_tokens line). rewrite Hsplit. constructor.
Qed.

Lemma covers_nonempty t m : covers t m = true → m ≠ EmptyString → t ≠ EmptyString.
Proof. destruct t, m; simpl; congruence. Qed.

Lemma parsed_result_terms pla_data minterms num_inputs num_outputs fuel passes result t :
  Pla.parse_pla_data pla_data = Some (minterms, num_inputs, num_outputs) →
  quine_mccluskey_fuel fuel num_inputs minterms = Done passes result →
  t ∈ result →
  well_formed num_inputs t = true ∧ t ≠ EmptyString.
Proof.
  intros Hparse Hrun Ht.
  apply (quine_mccluskey_result _ _ _ _ _ Hrun) in Ht as (j & g & i & Hgen & Ht & _).
  split; [apply (proj2 (generation_grouped _ _ _ _ Hgen) _ _ Ht)|].
  destruct (generation_from_input _ _ _ _ _ _ Hgen Ht) as (m' & Hin & _ & Hcov).
  apply (covers_nonempty _ _ Hcov).
  apply (parsed_terms _ _ _ _ _ Hparse Hin).
Qed.

(** X16: a text whose declared number of inputs is zero or less (the last
    [.i] line says so, or there is no [.i] line at all) gives an empty
    result after one pass, whatever its rows are: the parser hands over no
    empty term, and no other term has that length. *)
Theorem rows_without_width (pla_data : string) (minterms : list string)
    (num_inputs num_outputs : Z) :
  Pla.parse_pla_data pla_data = Some (minterms, num_inputs, num_outputs) →
  (num_inputs ≤ 0)%Z →
  quine_mccluskey num_inputs minterms = Done 1 [].
Proof.
  intros Hparse Hle.
  destruct (quine_mccluskey_done num_inputs minterms) as (p & r & Hrun & Hp).
  assert (p = 1) as ->.
  { unfold quine_mccluskey, quine_mccluskey_fuel in Hrun.
    destruct (group_minterms num_inputs minterms) as [[g w]|]; [|discriminate].
    destruct (qm_loop_fuel _ _ _ _ _ _ _ Hrun) as [Hlt _]. lia. }
  rewrite Hrun. f_equal. apply elem_of_nil_inv. intros t Ht.
  destruct (parsed_result_terms _ _ _ _ _ _ _ _ Hparse Hrun Ht) as [Hw Hne].
  apply well_formed_length in Hw. destruct t; [congruence|]. simpl in Hw. lia.
Qed.

Lemma rows_without_width_witness :
  quine_mccluskey 0 ["00"; "01"] = Done 1 [].
Proof.
  apply (rows_without_width
           ("00 1" +:+ String Pla.nl ("01 1" +:+ String Pla.nl ".o 1")) ["00"; "01"] 0 1).
  - vm_compute. reflexivity.
  - lia.
Defined.

(** The text [main] writes is the text of [write_pla_output]. *)

Lemma main_run script input_file rest files writable content minterms
    num_inputs num_outputs passes minimized_terms :
  files !! input_file = Some (Main.Text content) →
  Pla.parse_pla_data content = Some (minterms, num_inputs, num_outputs) →
  quine_mccluskey num_inputs minterms = Done passes minimized_terms →
  Main.main (script :: input_file :: rest) files writable =
  if writable (Main.output_file input_file)
  then Main.Return (<[Main.output_file input_file :=
                        Main.Text (Pla.write_pla_output minimized_terms
                                     num_inputs num_outputs)]> files)
  else Main.Raise Main.OSError.
Proof.
  intros Hfile Hparse Hrun. unfold Main.main. rewrite Hfile. cbv zeta.
  rewrite parse_universal_newlines, Hparse, Hrun.
  unfold Main.output_file, Pla.write_pla_output. cbv zeta.
  destruct (writable (Main.replace input_file ".pla" "_minimized.pla"));
    [|reflexivity].
  do 5 f_equal. rewrite !append_assoc. reflexivity.
Qed.

Lemma filter_nonempty (terms : list string) :
  (∀ t, t ∈ terms → t ≠ EmptyString) →
  filter (λ t, t ≠ EmptyString) terms = terms.
Proof.
  induction terms as [|t ts IH]; intros Hall; [reflexivity|].
  rewrite filter_cons_True by (apply Hall; constructor).
  rewrite IH; [reflexivity|]. intros t' Ht'. apply Hall. constructor. assumption.
Qed.

Lemma symbols_no_dot t : all_symbols_ok t = true → Pla.startswith t "." = false.
Proof.
  destruct t as [|c t]; [reflexivity|]. simpl. unfold symbol_ok.
  intros [Hc _]%andb_prop.
  apply orb_prop in Hc as [Hc|Hc]; [apply orb_prop in Hc as [Hc|Hc]|];
    apply Ascii.eqb_eq in Hc; subst c; reflexivity.
Qed.

Lemma result_reparsed pla_data minterms num_inputs num_outputs fuel passes result :
  Pla.parse_pla_data pla_data = Some (minterms, num_inputs, num_outputs) →
  quine_mccluskey_fuel fuel num_inputs minterms = Done passes result →
  Pla.parse_pla_data (Pla.write_pla_output result num_inputs num_outputs) =
  Some (result, num_inputs, num_outputs).
Proof.
  intros Hparse Hrun. rewrite write_parse.
  - rewrite filter_nonempty; [reflexivity|]. intros t Ht.
    apply (parsed_result_terms _ _ _ _ _ _ _ _ Hparse Hrun Ht).
  - intros t Ht.
    destruct (parsed_result_terms _ _ _ _ _ _ _ _ Hparse Hrun Ht) as [Hw _].
    apply well_formed_symbols in Hw.
    split; [apply symbols_no_whitespace|apply symbols_no_dot]; assumption.
Qed.

(** X17: called with a path, [main] ends in one of five ways, decided in
    this order by the files alone: [open] raises when the input file cannot
    be opened; [file.read()] raises when its bytes do not decode; the parser
    raises when some line is a [.i] or [.o] line without a second token or
    with one that is no integer; the writing raises when the output path
    cannot be written; in every other case [main] returns and has written
    one file, at the path [output_file] gives.  No [KeyError] leaves
    [quine_mccluskey], and its loop always ends. *)
Theorem main_outcome (script input_file : string) (rest : list string)
    (files : gmap string Main.file) (writable : string → bool) :
  (files !! input_file = None ∧
   Main.main (script :: input_file :: rest) files writable = Main.Raise Main.OSError) ∨
  (files !! input_file = Some Main.Undecodable ∧
   Main.main (script :: input_file :: rest) files writable =
     Main.Raise Main.UnicodeDecodeError) ∨
  (∃ content line,
     files !! input_file = Some (Main.Text content) ∧
     line ∈ Pla.splitlines content ∧ bad_declaration line ∧
     Main.main (script :: input_file :: rest) files writable =
       Main.Raise Main.ParseError) ∨
  (∃ content,
     files !! input_file = Some (Main.Text content) ∧
     (∀ line, line ∈ Pla.splitlines content → ¬ bad_declaration line) ∧
     writable (Main.output_file input_file) = false ∧
     Main.main (script :: input_file :: rest) files writable = Main.Raise Main.OSError) ∨
  (∃ content text,
     files !! input_file = Some (Main.Text content) ∧
     (∀ line, line ∈ Pla.splitlines content → ¬ bad_declaration line) ∧
     writable (Main.output_file input_file) = true ∧
     Main.main (script :: input_file :: rest) files writable =
       Main.Return (<[Main.output_file input_file := Main.Text text]> files)).
Proof.
  destruct (files !! input_file) as [[content|]|] eqn:Hfile.
  - do 2 right. destruct (Pla.parse_pla_data content) as [[[ms n] m]|] eqn:Hparse.
    + right. destruct (quine_mccluskey_done n ms) as (p & terms & Hrun & _).
      assert (∀ line, line ∈ Pla.splitlines content → ¬ bad_declaration line) as Hgood.
      { intros line Hin Hbad.
        assert (Pla.parse_pla_data content = None) as Hnone
          by (apply parse_fails; eauto).
        congruence. }
      pose proof (main_run script _ rest _ writable _ _ _ _ _ _ Hfile Hparse Hrun) as Hmain.
      destruct (writable (Main.output_file input_file)) eqn:Hw.
      * right. exists content, (Pla.write_pla_output terms n m). auto.
      * left. exists content. auto.
    + left. pose proof Hparse as (line & Hin & Hbad)%parse_fails.
      exists content, line.
      split; [reflexivity|]. split; [assumption|]. split; [assumption|].
      unfold Main.main. rewrite Hfile. cbv zeta.
      rewrite parse_universal_newlines, Hparse. reflexivity.
  - right. left. split; [reflexivity|]. unfold Main.main. rewrite Hfile. reflexivity.
  - left. split; [reflexivity|]. unfold Main.main. rewrite Hfile. reflexivity.
Qed.

(** The output path. *)

Lemma replace_absent s old new :
  contains s old = false → Main.replace s old new = s.
Proof.
  unfold Main.replace. induction s as [|c r IH]; cbn [contains Main.replace_from].
  - rewrite orb_false_r. destruct old; [discriminate|reflexivity].
  - intros [Hhere Hlater]%orb_false_elim. rewrite Hhere, (IH Hlater). reflexivity.
Qed.

Lemma no_overlap c b rest :
  Pla.startswith (String c b) ".pla" = false →
  Pla.startswith (String c (b +:+ ".pla" +:+ rest)) ".pla" = false.
Proof.
  unfold Pla.startswith. rewrite !prefix_cons.
  destruct (Ascii.eqb "." c); [|reflexivity].
  destruct b as [|c1 b]; [reflexivity|]. rewrite append_cons, !prefix_cons.
  destruct (Ascii.eqb "p" c1); [|reflexivity].
  destruct b as [|c2 b]; [reflexivity|]. rewrite append_cons, !prefix_cons.
  destruct (Ascii.eqb "l" c2); [|reflexivity].
  destruct b as [|c3 b]; [reflexivity|]. rewrite append_cons, !prefix_cons.
  destruct (Ascii.eqb "a" c3); [|reflexivity].
  destruct b; discriminate.
Qed.

Lemma replace_first base rest :
  contains base ".pla" = false →
  Main.output_file (base +:+ ".pla" +:+ rest) =
  base +:+ "_minimized.pla" +:+ Main.output_file rest.
Proof.
  unfold Main.output_file, Main.replace.
  induction base as [|c b IH].
  { intros _.
    change (EmptyString +:+ ".pla" +:+ rest)
      with (String "." (String "p" (String "l" (String "a" rest)))).
    cbn [Main.replace_from].
    assert (Pla.startswith (String "." (String "p" (String "l" (String "a" rest))))
              ".pla" = true) as ->.
    { unfold Pla.startswith. rewrite !prefix_cons. destruct rest; reflexivity. }
    reflexivity. }
  cbn [contains].
  intros [Hhere Hlater]%orb_false_elim.
  rewrite !(append_cons c b). cbn [Main.replace_from].
  rewrite (no_overlap _ _ _ Hhere), (IH Hlater). reflexivity.
Qed.

(** X18: the output path is the input path with every [.pla] replaced, not
    only one at the end: up to its first [.pla] the path is kept, that
    [.pla] becomes [_minimized.pla], and what follows is treated in the same
    way.  A path without [.pla] is its own output path, so that [main] then
    writes over its input file. *)
Theorem output_file_first (base rest : string) :
  contains base ".pla" = false →
  Main.output_file (base +:+ ".pla" +:+ rest) =
    base +:+ "_minimized.pla" +:+ Main.output_file rest ∧
  Main.output_file base = base.
Proof.
  intros Hbase. split; [apply (replace_first _ _ Hbase)|apply (replace_absent _ _ _ Hbase)].
Qed.

Lemma output_file_first_witness :
  Main.output_file ("t" +:+ ".pla" +:+ "/in.pla") =
    "t" +:+ "_minimized.pla" +:+ Main.output_file "/in.pla" ∧
  Main.output_file "t" = "t".
Proof. apply (output_file_first "t" "/in.pla"). reflexivity. Defined.

(** X19: for an input file that can be read and parses, and an output path
    that can be written, [main] returns, and the file it has written holds
    the text [write_pla_output] would write for the result of
    [quine_mccluskey] on the parsed rows, with the two counts as parsed;
    [parse_pla_data] reads from that text the same counts and exactly the
    minimized terms, in the same order. *)
Theorem main_output_reparsed (script input_file : string) (rest : list string)
    (files : gmap string Main.file) (writable : string → bool) (content : string)
    (minterms : list string) (num_inputs num_outputs : Z) :
  files !! input_file = Some (Main.Text content) →
  Pla.parse_pla_data content = Some (minterms, num_inputs, num_outputs) →
  writable (Main.output_file input_file) = true →
  ∃ passes minimized_terms,
    quine_mccluskey num_inputs minterms = Done passes minimized_terms ∧
    Main.main (script :: input_file :: rest) files writable =
      Main.Return (<[Main.output_file input_file :=
                       Main.Text (Pla.write_pla_output minimized_terms
                                    num_inputs num_outputs)]> files) ∧
    Pla.parse_pla_data (Pla.write_pla_output minimized_terms num_inputs num_outputs) =
      Some (minimized_terms, num_inputs, num_outputs).
Proof.
  intros Hfile Hparse Hw.
  destruct (quine_mccluskey_done num_inputs minterms) as (p & terms & Hrun & _).
  exists p, terms. split; [assumption|]. split.
  - rewrite (main_run _ _ _ _ _ _ _ _ _ _ _ Hfile Hparse Hrun), Hw. reflexivity.
  - apply (result_reparsed _ _ _ _ _ _ _ Hparse Hrun).
Qed.

Lemma main_output_reparsed_witness :
  ∃ passes minimized_terms,
    quine_mccluskey 2 ["00"; "01"; "11"] = Done passes minimized_terms ∧
    Main.main ["qm.py"; "f.pla"]
      {[ "f.pla" := Main.Text (".i 2" +:+ String Pla.nl ("00 1" +:+ String Pla.nl
                    ("01 1" +:+ String Pla.nl ("10 0" +:+ String Pla.nl "11 1")))) ]}
      (String.eqb "f_minimized.pla") =
      Main.Return (<[Main.output_file "f.pla" :=
                       Main.Text (Pla.write_pla_output minimized_terms 2 0)]>
        {[ "f.pla" := Main.Text (".i 2" +:+ String Pla.nl ("00 1" +:+ String Pla.nl
                    ("01 1" +:+ String Pla.nl ("10 0" +:+ String Pla.nl "11 1")))) ]}) ∧
    Pla.parse_pla_data (Pla.write_pla_output minimized_terms 2 0) =
      Some (minimized_terms, 2%Z, 0%Z).
Proof.
  apply (main_output_reparsed "qm.py" "f.pla" []
           {[ "f.pla" := Main.Text (".i 2" +:+ String Pla.nl ("00 1" +:+ String Pla.nl
                    ("01 1" +:+ String Pla.nl ("10 0" +:+ String Pla.nl "11 1")))) ]}
           (String.eqb "f_minimized.pla")
           (".i 2" +:+ String Pla.nl ("00 1" +:+ String Pla.nl
                    ("01 1" +:+ String Pla.nl ("10 0" +:+ String Pla.nl "11 1"))))
           ["00"; "01"; "11"] 2 0).
  - vm_compute. reflexivity.
  - vm_compute. reflexivity.
  - vm_compute. reflexivity.
Defined.

(** Running the program on the file it wrote. *)




